(** * A token-bucket rate limiter: the Go code and its properties

    The development embeds [services/ratelimiter.go],
    [services/apihandler.go] and the wiring of [main.go].  Go's [int] is the 64-bit two's complement
    integer, [float64] is IEEE 754 binary64 (the executable specification
    [SpecFloat] of the Standard Library, precision 53, [emax] 1024), the
    registry [map[string]*RequestMetadata] is a finite map from keys to
    bucket records, and the clock is an explicit argument of [Allow]:
    nanoseconds on the monotonic clock, as [time.Now] reads it.

    The first part holds the model: the arithmetic of the language, the
    limiter, the HTTP wrapper, and goroutines calling [Allow] under the
    mutex.  The second part holds the properties: signs and magnitudes of
    the floating-point refill amount, one call and sequences of calls,
    the statements about the specification, the concurrent callers, and
    further properties of the registry, of bursts, of the clock, of the
    wrapped handler on sequences of requests and of the two routes. *)

From Stdlib Require Import ZArith Lia Bool List Ascii.
From Stdlib Require Import Floats.SpecFloat.
From stdpp Require Import gmap strings.

Open Scope Z_scope.

(** ** Go's [int] *)

Module GoInt.

Definition min_int : Z := - 2 ^ 63.
Definition max_int : Z := 2 ^ 63 - 1.

Definition in_range (z : Z) : Prop := min_int <= z <= max_int.

Definition in_rangeb (z : Z) : bool := (min_int <=? z) && (z <=? max_int).

(** Two's complement reduction of a mathematical integer. *)
Definition wrap (z : Z) : Z := Z.modulo (z + 2 ^ 63) (2 ^ 64) - 2 ^ 63.

Definition add (a b : Z) : Z := wrap (a + b).
Definition sub (a b : Z) : Z := wrap (a - b).

End GoInt.

(** ** Go's [float64] *)

Module Float64.

Definition prec : Z := 53.
Definition emax : Z := 1024.

(** [float64(n)] for an integer [n]: round to nearest, ties to even. *)
Definition of_int (n : Z) : spec_float := binary_normalize prec emax n 0 false.

Definition add : spec_float -> spec_float -> spec_float := SFadd prec emax.
Definition mul : spec_float -> spec_float -> spec_float := SFmul prec emax.
Definition div : spec_float -> spec_float -> spec_float := SFdiv prec emax.

(** The integer part of a finite float, rounded toward zero. *)
Definition trunc (f : spec_float) : option Z :=
  match f with
  | S754_zero _ => Some 0
  | S754_finite s m e => Some (cond_Zopp s (Z.shiftl (Zpos m) e))
  | S754_infinity _ => None
  | S754_nan => None
  end.

(** [int(f)].  The language leaves the result open when the value does
    not fit; the amd64 instruction CVTTSD2SQ, which the compiler emits,
    then yields the "integer indefinite" value [-2^63], also for NaN. *)
Definition to_int (f : spec_float) : Z :=
  match trunc f with
  | Some z => if GoInt.in_rangeb z then z else GoInt.min_int
  | None => GoInt.min_int
  end.

(** A zero, a number or an infinity with sign bit [s]. *)
Definition signed (s : bool) (f : spec_float) : Prop :=
  match f with
  | S754_zero s' => s' = s
  | S754_finite s' _ _ => s' = s
  | S754_infinity s' => s' = s
  | S754_nan => False
  end.

(** Not above zero: zero, negative, or NaN. *)
Definition le0 (f : spec_float) : Prop :=
  match f with
  | S754_finite s _ _ => s = true
  | S754_infinity s => s = true
  | _ => True
  end.

(** Not below zero: zero, positive, or NaN. *)
Definition ge0 (f : spec_float) : Prop :=
  match f with
  | S754_finite s _ _ => s = false
  | S754_infinity s => s = false
  | _ => True
  end.

(** A finite number whose binary magnitude is at most [k]: its absolute
    value is below [2^k].  Zeros, infinities and NaN pass. *)
Definition below (k : Z) (f : spec_float) : Prop :=
  match f with
  | S754_finite _ m e => Zpos (digits2_pos m) + e <= k
  | _ => True
  end.

End Float64.

(** ** Package [time]

    A [time.Time] obtained from [time.Now] carries a monotonic clock
    reading, and [Sub] of two such values subtracts the readings
    (nanoseconds, [int64]), saturating at the ends of [Duration]. *)

Module GoTime.

Definition Second : Z := 1000000000.

Definition Sub (t u : Z) : Z :=
  let d := t - u in
  if GoInt.max_int <? d then GoInt.max_int
  else if d <? GoInt.min_int then GoInt.min_int
  else d.

(** [time.Since(t)] when the clock reads [now]. *)
Definition Since (now t : Z) : Z := Sub now t.

(** [Duration.Seconds]:
    [sec := d / Second; nsec := d % Second;
     return float64(sec) + float64(nsec)/1e9],
    with Go's truncated division and remainder. *)
Definition Seconds (d : Z) : spec_float :=
  let sec := Z.quot d Second in
  let nsec := Z.rem d Second in
  Float64.add (Float64.of_int sec)
              (Float64.div (Float64.of_int nsec) (Float64.of_int 1000000000)).

End GoTime.

(** ** [services/ratelimiter.go] *)

Record RequestMetadata : Type := mkRequestMetadata {
  lastSeen : Z;      (* monotonic clock reading, nanoseconds *)
  tokenCount : Z
}.

(** The mutex is not a field here: a call of [Allow] below is the body of
    the critical section, and [Module Concurrent] puts the lock back. *)
Record RateLimiter : Type := mkRateLimiter {
  requests : gmap string RequestMetadata;
  maxLimit : Z;
  timeLImit : Z
}.

Definition NewRateLimiter (maxLimit timeLimit : Z) : RateLimiter :=
  {| requests := ∅; maxLimit := maxLimit; timeLImit := timeLimit |}.

(** [rl.requests[apiKey] = md], and writes through the stored pointer.
    Every pointer in the map is allocated by [Allow] for one key and is
    never copied elsewhere, so a map of records has the same behaviour. *)
Definition store (rl : RateLimiter) (apiKey : string) (md : RequestMetadata)
  : RateLimiter :=
  {| requests := <[apiKey := md]> (requests rl);
     maxLimit := maxLimit rl;
     timeLImit := timeLImit rl |}.

Definition refillRate (rl : RateLimiter) : spec_float :=
  Float64.div (Float64.of_int (maxLimit rl)) (Float64.of_int (timeLImit rl)).

Definition timePassed (metadata : RequestMetadata) (now : Z) : spec_float :=
  GoTime.Seconds (GoTime.Since now (lastSeen metadata)).

Definition tokensToAdd (rl : RateLimiter) (metadata : RequestMetadata) (now : Z) : Z :=
  Float64.to_int (Float64.mul (timePassed metadata now) (refillRate rl)).

(** Lines 41-48: credit the whole tokens earned since [lastSeen]. *)
Definition refill (rl : RateLimiter) (metadata : RequestMetadata) (now now' : Z)
  : RequestMetadata :=
  let n := tokensToAdd rl metadata now in
  if 0 <? n
  then {| lastSeen := now'; tokenCount := GoInt.add (tokenCount metadata) n |}
  else metadata.

(** Lines 50-52. *)
Definition clamp (rl : RateLimiter) (metadata : RequestMetadata) : RequestMetadata :=
  if maxLimit rl <? tokenCount metadata
  then {| lastSeen := lastSeen metadata; tokenCount := maxLimit rl |}
  else metadata.

(** Lines 54-59. *)
Definition consume (metadata : RequestMetadata) : bool * RequestMetadata :=
  if 0 <? tokenCount metadata
  then (true, {| lastSeen := lastSeen metadata;
                 tokenCount := GoInt.sub (tokenCount metadata) 1 |})
  else (false, metadata).

(** Lines 41-59 on the record a bucket pointer leads to. *)
Definition update (rl : RateLimiter) (metadata : RequestMetadata) (now now' : Z)
  : bool * RequestMetadata :=
  consume (clamp rl (refill rl metadata now now')).

(** [Allow]: [now] is what the clock reads at the first use of the clock in
    the call ([time.Now] on line 35, or inside [time.Since] on line 42) and
    [now'] what it reads at [time.Now] on line 47. *)
Definition Allow (rl : RateLimiter) (apiKey : string) (now now' : Z)
  : bool * RateLimiter :=
  match requests rl !! apiKey with
  | None =>
      (true, store rl apiKey {| lastSeen := now;
                                tokenCount := GoInt.sub (maxLimit rl) 1 |})
  | Some metadata =>
      let '(ok, metadata') := update rl metadata now now' in
      (ok, store rl apiKey metadata')
  end.

(** A call during which the clock does not move. *)
Definition AllowAt (rl : RateLimiter) (apiKey : string) (now : Z)
  : bool * RateLimiter :=
  Allow rl apiKey now now.

(** A sequence of calls, each with its key and its two clock readings;
    the results come in call order. *)
Fixpoint AllowSeq (rl : RateLimiter) (calls : list (string * Z * Z))
  : list bool * RateLimiter :=
  match calls with
  | [] => ([], rl)
  | (apiKey, now, now') :: rest =>
      let '(ok, rl1) := Allow rl apiKey now now' in
      let '(oks, rl2) := AllowSeq rl1 rest in
      (ok :: oks, rl2)
  end.

(** [n] calls for one key at one instant. *)
Definition burst (apiKey : string) (now : Z) (n : nat) : list (string * Z * Z) :=
  replicate n (apiKey, now, now).

(** The bucket of [apiKey], if any. *)
Definition bucket (rl : RateLimiter) (apiKey : string) : option RequestMetadata :=
  requests rl !! apiKey.

(** *** Example states *)

(** The reference bucket (5 tokens per 60 seconds) drained, last refilled
    at time 0. *)
Definition drained_5_60 : RateLimiter :=
  store (NewRateLimiter 5 60) "k" {| lastSeen := 0; tokenCount := 0 |}.

(** Calls 5 and 10 seconds after time 0. *)
Definition idle_times : list (Z * Z) :=
  [(5 * GoTime.Second, 5 * GoTime.Second);
   (10 * GoTime.Second, 10 * GoTime.Second)].

(** A limiter of one token, after the call that created and emptied the
    bucket of [k] at time 0. *)
Definition spent_1_60 : RateLimiter :=
  snd (AllowAt (NewRateLimiter 1 60) "k" 0).

(** A limiter of one token per 90 days, after the call that created and
    emptied the bucket of [k] at time 0. *)
Definition spent_1_90days : RateLimiter :=
  snd (AllowAt (NewRateLimiter 1 7776000) "k" 0).

(** The whole-token count in the words of the specification,
    [floor(elapsedSeconds * capacity / windowSeconds)], in exact
    arithmetic: the elapsed time is a number of nanoseconds, and the
    window is positive. *)
Definition spec_tokensToAdd (rl : RateLimiter) (metadata : RequestMetadata)
    (now : Z) : Z :=
  (GoTime.Since now (lastSeen metadata) * maxLimit rl)
    / (timeLImit rl * GoTime.Second).

(** A limiter of [2^62] tokens per second, and two calls for one key
    a second and a half apart. *)
Definition huge_limiter : RateLimiter := NewRateLimiter (2 ^ 62) 1.

Definition huge_calls : list (string * Z * Z) :=
  [("k", 0, 0); ("k", 1500000000, 1500000000)].

(** *** Predicates on limiter states *)

(** Every [int] of the state is an [int]. *)
Definition well_typed (rl : RateLimiter) : Prop :=
  GoInt.in_range (maxLimit rl) /\
  GoInt.in_range (timeLImit rl) /\
  forall apiKey md, bucket rl apiKey = Some md -> GoInt.in_range (tokenCount md).

(** Every bucket holds between 0 and [maxLimit] tokens. *)
Definition within_capacity (rl : RateLimiter) : Prop :=
  forall apiKey md, bucket rl apiKey = Some md -> 0 <= tokenCount md <= maxLimit rl.

(** The addition on line 46 stays inside [int] for the bucket of [apiKey]. *)
Definition no_overflow (rl : RateLimiter) (apiKey : string) (now : Z) : Prop :=
  forall md, bucket rl apiKey = Some md ->
             tokenCount md + tokensToAdd rl md now <= GoInt.max_int.

(** Line 46 stays inside [int] in every call of the sequence. *)
Fixpoint no_overflow_run (rl : RateLimiter) (calls : list (string * Z * Z)) : Prop :=
  match calls with
  | [] => True
  | (apiKey, now, now') :: rest =>
      no_overflow rl apiKey now /\
      no_overflow_run (snd (Allow rl apiKey now now')) rest
  end.

(** ** [services/apihandler.go] *)

Module Http.

Record Request : Type := mkRequest {
  Header : gmap string (list string);
  Body : string
}.

Record Response : Type := mkResponse {
  StatusCode : Z;
  ResponseBody : string
}.

Definition StatusUnauthorized : Z := 401.
Definition StatusTooManyRequests : Z := 429.

(** [Header.Get]: the first value stored under the name, or the empty
    string when there is none.  (Go compares header names in canonical
    form; the map here is keyed by the name the handler asks for.) *)
Definition Get (h : gmap string (list string)) (key : string) : string :=
  match h !! key with
  | Some (v :: _) => v
  | _ => EmptyString
  end.

(** [http.Error]: the status code, and the message on a line of its own. *)
Definition Error (error : string) (code : Z) : Response :=
  {| StatusCode := code;
     ResponseBody := error ++ String "010"%char EmptyString |}.

(** An [http.Handler] over the application state [App] it may touch. *)
Definition Handler (App : Type) : Type := Request -> App -> Response * App.

End Http.

(** [apistore.GetApiKeys] is not among the sources; the table it returns
    is the argument [apiKeys].  A key is valid when it is present in the
    table, whatever boolean it maps to. *)
Definition isValidApiKey (apiKeys : gmap string bool) (apiKey : string) : bool :=
  match apiKeys !! apiKey with
  | Some _ => true
  | None => false
  end.

(** The handler [RateLimiterMiddleware] returns.  It runs on the limiter
    and the application state, with the clock readings of its one call of
    [Allow]. *)
Definition RateLimiterMiddleware {App : Type} (apiKeys : gmap string bool)
    (next : Http.Handler App) (now now' : Z)
    (r : Http.Request) (st : RateLimiter * App)
  : Http.Response * (RateLimiter * App) :=
  let apiKey := Http.Get (Http.Header r) "X-API-KEY" in
  if String.eqb apiKey EmptyString then
    (Http.Error "Missing API key" Http.StatusUnauthorized, st)
  else if negb (isValidApiKey apiKeys apiKey) then
    (Http.Error "Invalid API key" Http.StatusUnauthorized, st)
  else
    let '(ok, limiter') := Allow (fst st) apiKey now now' in
    if negb ok then
      (Http.Error "Rate limit exceeded" Http.StatusTooManyRequests,
       (limiter', snd st))
    else
      let '(resp, app') := next r (snd st) in
      (resp, (limiter', app')).

(** *** Example requests

    The key table of [api-store/store.go] and the first handler of
    [main.go], which here also counts the requests it serves. *)

Definition example_keys : gmap string bool :=
  <["apikey123" := true]> (<["apikey124" := true]> ∅).

Definition request_with_key (apiKey : string) : Http.Request :=
  {| Http.Header := <["X-API-KEY" := [apiKey]]> ∅; Http.Body := EmptyString |}.

Definition request_without_key : Http.Request :=
  {| Http.Header := ∅; Http.Body := EmptyString |}.

Definition helloHandler : Http.Handler nat :=
  fun _ served =>
    ({| Http.StatusCode := 200; Http.ResponseBody := "Hello World" |}, S served).

(** ** Concurrent callers

    Each goroutine runs [Allow(apiKey)]: it takes the mutex (line 29),
    looks the key up (line 32), runs the rest of the body on what it
    found, and releases the mutex when it returns (the deferred call of
    line 30).  The scheduler picks any goroutine at any step. *)

Module Concurrent.

Inductive thread : Type :=
| Entering                    (* about to call [rl.mutex.Lock()] *)
| Locked                      (* holds the mutex, line 32 comes next *)
| Looked (found : bool)       (* line 32 done: [exists] *)
| Unlocking (ok : bool)       (* result fixed, deferred [Unlock] pending *)
| Returned (ok : bool).

#[global] Instance thread_eq_dec : EqDecision thread.
Proof. solve_decision. Defined.

Record config : Type := mkConfig {
  limiter : RateLimiter;
  mutex : bool;               (* [true] when locked *)
  threads : list thread
}.

Definition init (rl : RateLimiter) (n : nat) : config :=
  {| limiter := rl; mutex := false; threads := replicate n Entering |}.

(** One step of goroutine [i]; the clock reads [now] throughout. *)
Inductive step (apiKey : string) (now : Z) : config -> config -> Prop :=
| step_lock c i :
    threads c !! i = Some Entering ->
    mutex c = false ->
    step apiKey now c
      {| limiter := limiter c; mutex := true;
         threads := <[i := Locked]> (threads c) |}
| step_lookup c i :
    threads c !! i = Some Locked ->
    step apiKey now c
      {| limiter := limiter c; mutex := mutex c;
         threads := <[i := Looked (bool_decide
                                     (is_Some (requests (limiter c) !! apiKey)))]>
                      (threads c) |}
| step_create c i :
    threads c !! i = Some (Looked false) ->
    step apiKey now c
      {| limiter := store (limiter c) apiKey
                      {| lastSeen := now;
                         tokenCount := GoInt.sub (maxLimit (limiter c)) 1 |};
         mutex := mutex c;
         threads := <[i := Unlocking true]> (threads c) |}
| step_update c i metadata :
    threads c !! i = Some (Looked true) ->
    requests (limiter c) !! apiKey = Some metadata ->
    step apiKey now c
      {| limiter := store (limiter c) apiKey
                      (snd (update (limiter c) metadata now now));
         mutex := mutex c;
         threads := <[i := Unlocking (fst (update (limiter c) metadata now now))]>
                      (threads c) |}
| step_unlock c i ok :
    threads c !! i = Some (Unlocking ok) ->
    step apiKey now c
      {| limiter := limiter c; mutex := false;
         threads := <[i := Returned ok]> (threads c) |}.

(** Configurations some schedule leads to from [n] fresh callers. *)
Definition reachable (apiKey : string) (now : Z) (rl : RateLimiter) (n : nat)
    (c : config) : Prop :=
  rtc (step apiKey now) (init rl n) c.

(** No goroutine can move. *)
Definition halted (apiKey : string) (now : Z) (c : config) : Prop :=
  forall c', ~ step apiKey now c c'.

Definition is_returned (th : thread) : bool :=
  match th with Returned _ => true | _ => false end.

(** Holding the mutex. *)
Definition critical (th : thread) : nat :=
  match th with
  | Locked | Looked _ | Unlocking _ => 1%nat
  | _ => 0%nat
  end.

(** Past the body, with any result. *)
Definition decided (th : thread) : nat :=
  match th with
  | Unlocking _ | Returned _ => 1%nat
  | _ => 0%nat
  end.

(** Past the body, with result [true]. *)
Definition granted (th : thread) : nat :=
  match th with
  | Unlocking true | Returned true => 1%nat
  | _ => 0%nat
  end.

(** Steps a goroutine still has to take. *)
Definition remaining (th : thread) : nat :=
  match th with
  | Entering => 4%nat
  | Locked => 3%nat
  | Looked _ => 2%nat
  | Unlocking _ => 1%nat
  | Returned _ => 0%nat
  end.

(** Calls that returned [true]. *)
Definition admissions (c : config) : nat :=
  length (filter (fun th => th = Returned true) (threads c)).

Definition work_left (c : config) : nat :=
  sum_list_with remaining (threads c).

(** What holds of every configuration that [n] callers of a limiter of
    capacity [C] and window [W] can reach while the clock reads [now]:
    at most the holder of the mutex is inside the critical section, the
    bucket records how many calls are past the body, and a caller that
    has looked the key up still knows the truth about it. *)
Definition inv (apiKey : string) (now C W : Z) (n : nat) (c : config) : Prop :=
  maxLimit (limiter c) = C /\
  timeLImit (limiter c) = W /\
  length (threads c) = n /\
  sum_list_with critical (threads c) = (if mutex c then 1 else 0)%nat /\
  bucket (limiter c) apiKey =
    match sum_list_with decided (threads c) with
    | O => None
    | S _ =>
        Some {| lastSeen := now;
                tokenCount :=
                  C - Z.min (Z.of_nat (sum_list_with decided (threads c))) C |}
    end /\
  Z.of_nat (sum_list_with granted (threads c)) =
    Z.min (Z.of_nat (sum_list_with decided (threads c))) C /\
  forall i found,
    threads c !! i = Some (Looked found) ->
    found = bool_decide (is_Some (bucket (limiter c) apiKey)).

(** Two callers of a one-token limiter, both returned. *)
Definition two_callers_done : config :=
  {| limiter := store (NewRateLimiter 1 60) "k" {| lastSeen := 0; tokenCount := 0 |};
     mutex := false;
     threads := [Returned true; Returned false] |}.

End Concurrent.

(** ** Further vocabulary

    Sequences of requests through the wrapped handler, the wiring of
    [main.go], and counts over results. *)

(** How many calls returned [true]. *)
Definition allowed (oks : list bool) : nat :=
  length (filter (fun ok => ok = true) oks).

(** The keys a sequence of calls names. *)
Definition called (calls : list (string * Z * Z)) : gset string :=
  list_to_set (map (fun call => fst (fst call)) calls).

(** The keys that have a bucket. *)
Definition seen (rl : RateLimiter) : gset string := dom (requests rl).

(** An inner handler on a sequence of requests, one after the other. *)
Fixpoint runHandler {App : Type} (next : Http.Handler App)
    (reqs : list Http.Request) (app : App) : list Http.Response * App :=
  match reqs with
  | [] => ([], app)
  | r :: rest =>
      let '(resp, app1) := next r app in
      let '(resps, app2) := runHandler next rest app1 in
      (resp :: resps, app2)
  end.

(** The wrapped handler on a sequence of requests, each with the clock
    readings of its call of [Allow]. *)
Fixpoint serveSeq {App : Type} (apiKeys : gmap string bool)
    (next : Http.Handler App) (reqs : list (Http.Request * Z * Z))
    (st : RateLimiter * App) : list Http.Response * (RateLimiter * App) :=
  match reqs with
  | [] => ([], st)
  | (r, now, now') :: rest =>
      let '(resp, st1) := RateLimiterMiddleware apiKeys next now now' r st in
      let '(resps, st2) := serveSeq apiKeys next rest st1 in
      (resp :: resps, st2)
  end.

(** The calls of [Allow] the wrapped handler makes for a sequence of
    requests: one for each request that gets past lines 11 and 16. *)
Fixpoint limiter_calls (apiKeys : gmap string bool)
    (reqs : list (Http.Request * Z * Z)) : list (string * Z * Z) :=
  match reqs with
  | [] => []
  | (r, now, now') :: rest =>
      let apiKey := Http.Get (Http.Header r) "X-API-KEY" in
      if String.eqb apiKey EmptyString then limiter_calls apiKeys rest
      else if negb (isValidApiKey apiKeys apiKey) then limiter_calls apiKeys rest
      else (apiKey, now, now') :: limiter_calls apiKeys rest
  end.

(** *** [main.go]

    One limiter of 5 requests per 60 seconds, and two handlers wrapped
    around it.  [Route] is the pattern the server's multiplexer has
    matched; requests for other paths never reach the wrapped handlers.
    The handlers also count the requests they serve. *)

Module Main.

Definition rateLimiter : RateLimiter := NewRateLimiter 5 60.

Definition worldHandler : Http.Handler nat :=
  fun _ served =>
    ({| Http.StatusCode := 200; Http.ResponseBody := "Welcome to the World" |},
     S served).

Inductive Route : Type := Hello | World.

Definition inner (route : Route) : Http.Handler nat :=
  match route with
  | Hello => helloHandler
  | World => worldHandler
  end.

(** The handler registered for [route]. *)
Definition registered (apiKeys : gmap string bool) (route : Route)
    (now now' : Z) (r : Http.Request) (st : RateLimiter * nat)
  : Http.Response * (RateLimiter * nat) :=
  RateLimiterMiddleware apiKeys (inner route) now now' r st.

(** Requests, each with its route, served one after the other. *)
Fixpoint serveAll (apiKeys : gmap string bool)
    (reqs : list (Route * Http.Request * Z * Z)) (st : RateLimiter * nat)
  : list Http.Response * (RateLimiter * nat) :=
  match reqs with
  | [] => ([], st)
  | (route, r, now, now') :: rest =>
      let '(resp, st1) := registered apiKeys route now now' r st in
      let '(resps, st2) := serveAll apiKeys rest st1 in
      (resp :: resps, st2)
  end.

End Main.

(** * Properties *)

(** Case analysis on the first comparison in the goal. *)
Ltac split_ltb :=
  match goal with
  | |- context [?a <? ?b] => destruct (Z.ltb_spec a b)
  end.

(** Bounds of [int], by linear arithmetic. *)
Ltac int_bounds :=
  unfold GoInt.in_range, GoInt.min_int, GoInt.max_int in *; lia.

(** ** Arithmetic of [int] *)

Lemma in_rangeb_spec z : GoInt.in_rangeb z = true <-> GoInt.in_range z.
Proof.
  unfold GoInt.in_rangeb, GoInt.in_range.
  rewrite andb_true_iff, !Z.leb_le. tauto.
Qed.

Lemma wrap_in_range z : GoInt.in_range (GoInt.wrap z).
Proof.
  unfold GoInt.wrap, GoInt.in_range, GoInt.min_int, GoInt.max_int.
  pose proof (Z.mod_pos_bound (z + 2 ^ 63) (2 ^ 64) ltac:(lia)). lia.
Qed.

Lemma wrap_id z : GoInt.in_range z -> GoInt.wrap z = z.
Proof.
  unfold GoInt.wrap, GoInt.in_range, GoInt.min_int, GoInt.max_int. intros Hz.
  rewrite Z.mod_small by lia. lia.
Qed.

Lemma add_exact a b : GoInt.in_range (a + b) -> GoInt.add a b = a + b.
Proof. apply wrap_id. Qed.

Lemma sub_exact a b : GoInt.in_range (a - b) -> GoInt.sub a b = a - b.
Proof. apply wrap_id. Qed.

(** ** Signs of [float64] results

    Rounding never changes the sign of a result, so the sign of the
    product [timePassed * refillRate] is known without error analysis. *)

Lemma signed_le0 f : Float64.signed true f -> Float64.le0 f.
Proof. destruct f; simpl; tauto. Qed.

Lemma signed_ge0 f : Float64.signed false f -> Float64.ge0 f.
Proof. destruct f; simpl; tauto. Qed.

Lemma shr_1_nonneg mrs : 0 <= shr_m mrs -> 0 <= shr_m (shr_1 mrs).
Proof.
  destruct mrs as [m r s]. simpl.
  destruct m as [|p|p]; [simpl; lia | | lia].
  intros _. destruct p; simpl; lia.
Qed.

Lemma iter_shr_1_nonneg p : forall mrs,
  0 <= shr_m mrs -> 0 <= shr_m (SpecFloat.iter_pos shr_1 p mrs).
Proof.
  induction p as [p IH|p IH|]; intros mrs H; simpl.
  - apply IH, IH, shr_1_nonneg, H.
  - apply IH, IH, H.
  - apply shr_1_nonneg, H.
Qed.

Lemma shr_nonneg mrs e n : 0 <= shr_m mrs -> 0 <= shr_m (fst (shr mrs e n)).
Proof.
  intros H. unfold shr. destruct n; simpl; auto using iter_shr_1_nonneg.
Qed.

Lemma shr_fexp_nonneg m e l :
  0 <= m -> 0 <= shr_m (fst (shr_fexp Float64.prec Float64.emax m e l)).
Proof.
  intros H. unfold shr_fexp. apply shr_nonneg.
  destruct l as [|[]]; simpl; exact H.
Qed.

Lemma round_nearest_even_nonneg m l : 0 <= m -> 0 <= round_nearest_even m l.
Proof.
  intros H. unfold round_nearest_even.
  destruct l as [|[]]; try destruct (Z.even m); lia.
Qed.

(** The rounding step keeps the sign it is given. *)
Lemma binary_round_aux_signed s m e l :
  0 <= m -> Float64.signed s (binary_round_aux Float64.prec Float64.emax s m e l).
Proof.
  intros H. unfold binary_round_aux.
  pose proof (shr_fexp_nonneg m e l H) as H1.
  destruct (shr_fexp Float64.prec Float64.emax m e l) as [mrs' e']. simpl in H1.
  pose proof (shr_fexp_nonneg _ e' loc_Exact
                (round_nearest_even_nonneg _ (loc_of_shr_record mrs') H1)) as H2.
  destruct (shr_fexp Float64.prec Float64.emax _ e' loc_Exact) as [mrs'' e''].
  simpl in H2.
  destruct (shr_m mrs'') as [|p|p]; simpl; [reflexivity | | lia].
  destruct (e'' <=? Float64.emax - Float64.prec); reflexivity.
Qed.

Lemma binary_round_signed s m e :
  Float64.signed s (binary_round Float64.prec Float64.emax s m e).
Proof.
  unfold binary_round.
  destruct (shl_align m e _) as [mz ez].
  apply binary_round_aux_signed. lia.
Qed.

Lemma of_int_le0 n : n <= 0 -> Float64.le0 (Float64.of_int n).
Proof.
  intros H. unfold Float64.of_int, binary_normalize.
  destruct n as [|p|p]; [exact I | lia |].
  apply signed_le0, binary_round_signed.
Qed.

Lemma of_int_signed n : 0 <= n -> Float64.signed false (Float64.of_int n).
Proof.
  intros H. unfold Float64.of_int, binary_normalize.
  destruct n as [|p|p]; [reflexivity | | lia].
  apply binary_round_signed.
Qed.

Lemma div_core_nonneg m1 e1 m2 e2 :
  0 <= fst (fst (SFdiv_core_binary Float64.prec Float64.emax
                   (Zpos m1) e1 (Zpos m2) e2)).
Proof.
  unfold SFdiv_core_binary.
  set (s := (e1 - e2 - _)%Z).
  set (m' := match s with
             | Z0 => Zpos m1
             | Zpos _ => Z.shiftl (Zpos m1) s
             | Zneg _ => 0
             end).
  assert (Hm' : 0 <= m').
  { subst m'. destruct s; try lia. apply Z.shiftl_nonneg. lia. }
  pose proof (Z_div_mod m' (Zpos m2) ltac:(lia)) as Hdiv.
  destruct (Z.div_eucl m' (Zpos m2)) as [q r]. simpl.
  destruct Hdiv as [Hq Hr].
  destruct (Z.neg_nonneg_cases q) as [Hneg|]; [|assumption]. nia.
Qed.

Lemma div_finite_signed sx mx ex sy my ey :
  Float64.signed (xorb sx sy)
    (Float64.div (S754_finite sx mx ex) (S754_finite sy my ey)).
Proof.
  unfold Float64.div. simpl.
  pose proof (div_core_nonneg mx ex my ey) as H.
  destruct (SFdiv_core_binary Float64.prec Float64.emax (Zpos mx) ex (Zpos my) ey)
    as [[mz ez] lz].
  simpl in H. apply binary_round_aux_signed, H.
Qed.

Lemma div_le0 x y :
  Float64.le0 x -> Float64.signed false y -> Float64.le0 (Float64.div x y).
Proof.
  destruct x as [sx|sx| |sx mx ex], y as [sy|sy| |sy my ey];
    simpl; intros Hx Hy; subst; try exact I; try reflexivity; try contradiction.
  apply signed_le0. apply (div_finite_signed true mx ex false my ey).
Qed.

Lemma div_ge0 x y :
  Float64.signed false x -> Float64.signed false y ->
  Float64.ge0 (Float64.div x y).
Proof.
  destruct x as [sx|sx| |sx mx ex], y as [sy|sy| |sy my ey];
    simpl; intros Hx Hy; subst; try exact I; try reflexivity; try contradiction.
  apply signed_ge0. apply (div_finite_signed false mx ex false my ey).
Qed.

Lemma mul_le0 x y :
  Float64.le0 x -> Float64.ge0 y -> Float64.le0 (Float64.mul x y).
Proof.
  destruct x as [sx|sx| |sx mx ex], y as [sy|sy| |sy my ey];
    simpl; intros Hx Hy; subst; try exact I; try reflexivity.
  apply signed_le0. apply binary_round_aux_signed. lia.
Qed.

Lemma add_le0 x y :
  Float64.le0 x -> Float64.le0 y -> Float64.le0 (Float64.add x y).
Proof.
  destruct x as [sx|sx| |sx mx ex], y as [sy|sy| |sy my ey];
    simpl; intros Hx Hy; subst; try exact I; try reflexivity.
  - destruct sx, sy; exact I.
  - unfold binary_normalize.
    destruct (shl_align mx ex (Z.min ex ey)) as [m1 z1].
    destruct (shl_align my ey (Z.min ex ey)) as [m2 z2]. simpl.
    apply signed_le0, binary_round_signed.
Qed.

Lemma to_int_le0 f : Float64.le0 f -> Float64.to_int f <= 0.
Proof.
  unfold Float64.to_int. destruct f as [s|s| |s m e]; simpl; intros H;
    try (unfold GoInt.min_int; lia).
  subst s. simpl.
  pose proof (Z.shiftl_nonneg (Zpos m) e) as Hs.
  destruct (GoInt.in_rangeb _); unfold GoInt.min_int; lia.
Qed.

Lemma to_int_in_range f : GoInt.in_range (Float64.to_int f).
Proof.
  unfold Float64.to_int.
  destruct (Float64.trunc f) as [z|];
    [|unfold GoInt.in_range, GoInt.min_int, GoInt.max_int; lia].
  destruct (GoInt.in_rangeb z) eqn:E.
  - apply in_rangeb_spec, E.
  - unfold GoInt.in_range, GoInt.min_int, GoInt.max_int; lia.
Qed.

(** ** The clock and the refill amount *)

Lemma Since_same t : GoTime.Since t t = 0.
Proof. unfold GoTime.Since, GoTime.Sub. rewrite Z.sub_diag. reflexivity. Qed.

Lemma Since_shift t d : GoTime.Since (t + d) t = GoTime.Since d 0.
Proof.
  unfold GoTime.Since, GoTime.Sub.
  replace (t + d - t) with (d - 0) by lia. reflexivity.
Qed.

Lemma Since_nonpos now t : now <= t -> GoTime.Since now t <= 0.
Proof.
  unfold GoTime.Since, GoTime.Sub, GoInt.max_int, GoInt.min_int. intros H.
  repeat case_match; lia.
Qed.

Lemma Seconds_le0 d : d <= 0 -> Float64.le0 (GoTime.Seconds d).
Proof.
  intros H. unfold GoTime.Seconds.
  apply add_le0.
  - apply of_int_le0.
    pose proof (Z.mul_quot_ge d GoTime.Second H) as Hq.
    unfold GoTime.Second in *. lia.
  - apply div_le0.
    + apply of_int_le0, Z.rem_nonpos; [discriminate | exact H].
    + apply of_int_signed. lia.
Qed.

Lemma refillRate_ge0 rl :
  0 <= maxLimit rl -> 0 <= timeLImit rl -> Float64.ge0 (refillRate rl).
Proof.
  intros Hm Ht. unfold refillRate.
  apply div_ge0; apply of_int_signed; assumption.
Qed.

(** No token is earned before the clock passes [lastSeen]. *)
Lemma tokensToAdd_nonpos rl md now :
  0 <= maxLimit rl -> 0 <= timeLImit rl -> now <= lastSeen md ->
  tokensToAdd rl md now <= 0.
Proof.
  intros Hm Ht Hnow. unfold tokensToAdd, timePassed.
  apply to_int_le0, mul_le0.
  - apply Seconds_le0, Since_nonpos, Hnow.
  - apply refillRate_ge0; assumption.
Qed.

Lemma tokensToAdd_pos_elapsed rl md now :
  0 <= maxLimit rl -> 0 <= timeLImit rl ->
  0 < tokensToAdd rl md now -> lastSeen md < now.
Proof.
  intros Hm Ht Hpos.
  destruct (Z.le_gt_cases now (lastSeen md)) as [Hle|Hlt]; [|exact Hlt].
  pose proof (tokensToAdd_nonpos rl md now Hm Ht Hle). lia.
Qed.

(** At the very instant of [lastSeen] nothing is earned, whatever the rate. *)
Lemma tokensToAdd_same_instant rl md : tokensToAdd rl md (lastSeen md) <= 0.
Proof.
  unfold tokensToAdd, timePassed. rewrite Since_same.
  change (GoTime.Seconds 0) with (S754_zero false).
  destruct (refillRate rl) as [s|s| |s m e]; simpl; vm_compute; discriminate.
Qed.

(** The amount is the binary64 product, truncated.  At one token per 49
    seconds, [49.0 * (1.0 / 49.0)] rounds below 1: the 49 seconds that
    earn a token in exact arithmetic earn none here. *)
Lemma tokensToAdd_binary64 :
  tokensToAdd (NewRateLimiter 1 49) {| lastSeen := 0; tokenCount := 0 |}
    (49 * GoTime.Second) = 0 /\
  Z.div (49 * GoTime.Second * 1) (49 * GoTime.Second) = 1.
Proof. split; vm_compute; reflexivity. Qed.

Lemma tokensToAdd_in_range rl md now : GoInt.in_range (tokensToAdd rl md now).
Proof. apply to_int_in_range. Qed.

(** The amount depends on the bucket through [lastSeen] only. *)
Lemma tokensToAdd_lastSeen rl md1 md2 now :
  lastSeen md1 = lastSeen md2 -> tokensToAdd rl md1 now = tokensToAdd rl md2 now.
Proof. intros H. unfold tokensToAdd, timePassed. rewrite H. reflexivity. Qed.

Lemma tokensToAdd_store rl apiKey md0 md now :
  tokensToAdd (store rl apiKey md0) md now = tokensToAdd rl md now.
Proof. reflexivity. Qed.

(** ** Magnitudes of [float64] results

    Each operation lifts the binary magnitude of its operands by a
    bounded number of places, which bounds the refill amount of limiters
    of everyday size without any analysis of rounding errors. *)

Lemma digits2_pos_log2 p : Zpos (digits2_pos p) = Z.log2 (Zpos p) + 1.
Proof.
  induction p as [p IH|p IH|]; [| |reflexivity].
  - change (digits2_pos p~1) with (Pos.succ (digits2_pos p)).
    rewrite Pos2Z.inj_succ, IH.
    change (Zpos p~1) with (2 * Zpos p + 1).
    rewrite Z.log2_succ_double by lia. lia.
  - change (digits2_pos p~0) with (Pos.succ (digits2_pos p)).
    rewrite Pos2Z.inj_succ, IH.
    change (Zpos p~0) with (2 * Zpos p).
    rewrite Z.log2_double by lia. lia.
Qed.

Lemma Zdigits2_log2 m : 0 < m -> Zdigits2 m = Z.log2 m + 1.
Proof. destruct m as [|p|p]; try lia. intros _. apply digits2_pos_log2. Qed.

Lemma Zdigits2_nonneg m : 0 <= Zdigits2 m.
Proof. destruct m; simpl; lia. Qed.

Lemma shr_1_div2 mrs : 0 <= shr_m mrs -> shr_m (shr_1 mrs) = shr_m mrs / 2.
Proof.
  destruct mrs as [m r s]. simpl. destruct m as [|p|p]; try lia; intros _.
  - reflexivity.
  - destruct p as [p|p|]; simpl shr_m.
    + replace (Zpos p~1) with (Zpos p * 2 + 1) by lia.
      rewrite Z.div_add_l by lia. reflexivity.
    + replace (Zpos p~0) with (Zpos p * 2) by lia.
      rewrite Z.div_mul by lia. reflexivity.
    + reflexivity.
Qed.

Lemma iter_shr_1_div p : forall mrs,
  0 <= shr_m mrs ->
  shr_m (SpecFloat.iter_pos shr_1 p mrs) = shr_m mrs / 2 ^ Zpos p.
Proof.
  induction p as [p IH|p IH|]; intros mrs H; simpl SpecFloat.iter_pos.
  - rewrite IH by (apply iter_shr_1_nonneg, shr_1_nonneg, H).
    rewrite IH by (apply shr_1_nonneg, H).
    rewrite shr_1_div2 by exact H.
    rewrite !Z.div_div by lia.
    f_equal. replace (Zpos p~1) with (1 + (Zpos p + Zpos p)) by lia.
    rewrite !Z.pow_add_r by lia. lia.
  - rewrite IH by (apply iter_shr_1_nonneg, H).
    rewrite IH by exact H.
    rewrite !Z.div_div by lia.
    f_equal. replace (Zpos p~0) with (Zpos p + Zpos p) by lia.
    rewrite !Z.pow_add_r by lia. lia.
  - rewrite shr_1_div2 by exact H. reflexivity.
Qed.

Lemma shr_m_record m l : shr_m (shr_record_of_loc m l) = m.
Proof. destruct l as [|[]]; reflexivity. Qed.

(** Shifting right loses digits, never gains any. *)
Lemma Zdigits2_div m n :
  0 <= m -> 0 <= n -> Zdigits2 (m / 2 ^ n) + n <= Z.max (Zdigits2 m) n.
Proof.
  intros Hm Hn.
  destruct (Z.eq_dec (m / 2 ^ n) 0) as [->|Hq]; [simpl; lia|].
  assert (Hpos : 0 < m / 2 ^ n).
  { pose proof (Z.div_pos m (2 ^ n) Hm ltac:(lia)). lia. }
  assert (Hmpos : 0 < m).
  { destruct (Z.eq_dec m 0) as [->|]; [rewrite Z.div_0_l in Hq by lia; lia | lia]. }
  rewrite (Zdigits2_log2 _ Hpos), (Zdigits2_log2 _ Hmpos).
  rewrite <- Z.shiftr_div_pow2 by exact Hn.
  rewrite Z.log2_shiftr by exact Hmpos.
  assert (Hge : 2 ^ n <= m).
  { destruct (Z.lt_ge_cases m (2 ^ n)) as [Hlt|]; [|assumption].
    rewrite Z.div_small in Hq by lia. lia. }
  apply Z.log2_le_pow2 in Hge; [lia | exact Hmpos].
Qed.

Lemma shr_spec m l e n :
  0 <= m ->
  shr_m (fst (shr (shr_record_of_loc m l) e n)) =
    (if 0 <? n then m / 2 ^ n else m) /\
  snd (shr (shr_record_of_loc m l) e n) = (if 0 <? n then e + n else e).
Proof.
  intros Hm. unfold shr. destruct n as [|p|p]; simpl fst; simpl snd.
  - rewrite shr_m_record. split; reflexivity.
  - rewrite iter_shr_1_div by (rewrite shr_m_record; exact Hm).
    rewrite shr_m_record. split; reflexivity.
  - rewrite shr_m_record. split; reflexivity.
Qed.

(** After a shift by [fexp (digits + e) - e], digits plus exponent do
    not exceed what they were, or the least exponent. *)
Lemma shr_fexp_below m e l k :
  0 <= m -> Zdigits2 m + e <= k -> -1074 <= k ->
  Zdigits2 (shr_m (fst (shr_fexp Float64.prec Float64.emax m e l)))
    + snd (shr_fexp Float64.prec Float64.emax m e l) <= k /\
  (shr_m (fst (shr_fexp Float64.prec Float64.emax m e l)) = 0 ->
   snd (shr_fexp Float64.prec Float64.emax m e l) <= k).
Proof.
  intros Hm Hk Hmin. unfold shr_fexp.
  set (n := fexp Float64.prec Float64.emax (Zdigits2 m + e) - e).
  destruct (shr_spec m l e n Hm) as [-> ->].
  assert (Hn : n = Z.max (Zdigits2 m + e - 53) (-1074) - e) by reflexivity.
  pose proof (Zdigits2_nonneg m) as Hd.
  destruct (Z.ltb_spec 0 n) as [Hpos|Hnpos].
  - pose proof (Zdigits2_div m n Hm ltac:(lia)). split; [lia|]. intros _. lia.
  - split; [lia|]. intros ->. simpl in *. lia.
Qed.

Lemma Zdigits2_succ m : 0 <= m -> Zdigits2 (m + 1) <= Zdigits2 m + 1.
Proof.
  intros Hm. destruct (Z.eq_dec m 0) as [->|Hne]; [simpl; lia|].
  rewrite !Zdigits2_log2 by lia.
  pose proof (Z.log2_succ_le m). unfold Z.succ in *. lia.
Qed.

Lemma Zdigits2_round m l :
  0 <= m ->
  Zdigits2 (round_nearest_even m l) <= Zdigits2 m + 1.
Proof.
  intros Hm. unfold round_nearest_even.
  pose proof (Zdigits2_succ m Hm).
  destruct l as [|[]]; try destruct (Z.even m); lia.
Qed.

(** Rounding lifts the magnitude by one binary place at most. *)
Lemma binary_round_aux_below s m e l k :
  0 <= m -> Zdigits2 m + e <= k -> -1074 <= k ->
  Float64.below (k + 1) (binary_round_aux Float64.prec Float64.emax s m e l).
Proof.
  intros Hm Hk Hmin. unfold binary_round_aux.
  destruct (shr_fexp_below m e l k Hm Hk Hmin) as [H1 H1z].
  pose proof (shr_fexp_nonneg m e l Hm) as H1n.
  destruct (shr_fexp Float64.prec Float64.emax m e l) as [mrs' e'].
  cbn [fst snd] in *.
  set (m2 := round_nearest_even (shr_m mrs') (loc_of_shr_record mrs')).
  assert (Hm2 : 0 <= m2) by (apply round_nearest_even_nonneg, H1n).
  assert (H2 : Zdigits2 m2 + e' <= k + 1).
  { pose proof (Zdigits2_round (shr_m mrs') (loc_of_shr_record mrs') H1n).
    fold m2 in H.
    destruct (Z.eq_dec (shr_m mrs') 0) as [Hz|Hnz].
    - specialize (H1z Hz). rewrite Hz in H. simpl in H. lia.
    - lia. }
  destruct (shr_fexp_below m2 e' loc_Exact (k + 1) Hm2 H2 ltac:(lia)) as [H3 _].
  destruct (shr_fexp Float64.prec Float64.emax m2 e' loc_Exact) as [mrs'' e''].
  cbn [fst snd] in *.
  destruct (shr_m mrs'') as [|p|p]; simpl; try exact I.
  destruct (e'' <=? Float64.emax - Float64.prec); simpl; [|exact I].
  simpl in H3. exact H3.
Qed.

Lemma digits2_pos_iter_xO m d :
  Zpos (digits2_pos (Pos.iter xO m d)) = Zpos (digits2_pos m) + Zpos d.
Proof.
  induction d as [|d IH] using Pos.peano_ind.
  - simpl. lia.
  - rewrite Pos.iter_succ.
    change (digits2_pos (Pos.iter xO m d)~0)
      with (Pos.succ (digits2_pos (Pos.iter xO m d))).
    rewrite Pos2Z.inj_succ, IH. lia.
Qed.

Lemma shl_align_digits mx ex ex' :
  Zpos (digits2_pos (fst (shl_align mx ex ex'))) + snd (shl_align mx ex ex') =
  Zpos (digits2_pos mx) + ex.
Proof.
  unfold shl_align. destruct (ex' - ex) as [|d|d] eqn:Hd; cbn [fst snd];
    try reflexivity.
  rewrite digits2_pos_iter_xO. lia.
Qed.

Lemma binary_round_below s m e k :
  Zpos (digits2_pos m) + e <= k -> -1074 <= k ->
  Float64.below (k + 1) (binary_round Float64.prec Float64.emax s m e).
Proof.
  intros Hk Hmin. unfold binary_round.
  pose proof (shl_align_digits m e
                (fexp Float64.prec Float64.emax (Zpos (digits2_pos m) + e))) as H.
  destruct (shl_align m e _) as [mz ez]. cbn [fst snd] in H.
  apply binary_round_aux_below; [lia | simpl; lia | exact Hmin].
Qed.

(** A mantissa that already sits at its canonical exponent is kept as
    it is. *)
Lemma binary_round_aux_exact s m e :
  fexp Float64.prec Float64.emax (Zpos (digits2_pos m) + e) = e ->
  e <= Float64.emax - Float64.prec ->
  binary_round_aux Float64.prec Float64.emax s (Zpos m) e loc_Exact =
  S754_finite s m e.
Proof.
  intros Hcan He. unfold binary_round_aux, shr_fexp.
  cbn [Zdigits2]. rewrite Hcan, Z.sub_diag. cbn [shr shr_record_of_loc].
  cbn [shr_m loc_of_shr_record round_nearest_even Zdigits2].
  rewrite Hcan, Z.sub_diag. cbn [shr shr_record_of_loc shr_m].
  apply Z.leb_le in He. rewrite He. reflexivity.
Qed.

(** [float64(n)] is exact below [2^53]: a finite number of the magnitude
    of [n]. *)
Lemma of_int_small n :
  0 < n < 2 ^ 53 ->
  exists m e, Float64.of_int n = S754_finite false m e /\
              Zpos (digits2_pos m) + e = Zdigits2 n.
Proof.
  intros [Hpos Hlt]. destruct n as [|p|p]; try lia.
  unfold Float64.of_int, binary_normalize, binary_round.
  assert (Hd : Zpos (digits2_pos p) <= 53).
  { rewrite digits2_pos_log2.
    assert (Z.log2 (Zpos p) < 53) by (apply Z.log2_lt_pow2; lia). lia. }
  pose proof (shl_align_digits p 0
                (fexp Float64.prec Float64.emax (Zpos (digits2_pos p) + 0))) as H.
  assert (Hez : snd (shl_align p 0
                       (fexp Float64.prec Float64.emax (Zpos (digits2_pos p) + 0)))
                = Zpos (digits2_pos p) - 53).
  { unfold shl_align, fexp, SpecFloat.emin, Float64.prec, Float64.emax.
    rewrite Z.add_0_r, Z.sub_0_r.
    rewrite Z.max_l by lia.
    destruct (Zpos (digits2_pos p) - 53) as [|d|d] eqn:Hd'; cbn [snd]; lia. }
  destruct (shl_align p 0 _) as [mz ez]. cbn [fst snd] in *. subst ez.
  exists mz, (Zpos (digits2_pos p) - 53). split; [|simpl; lia].
  apply binary_round_aux_exact.
  - unfold fexp, SpecFloat.emin, Float64.prec, Float64.emax. lia.
  - unfold Float64.prec, Float64.emax. lia.
Qed.

Lemma below_mono k k' f : k <= k' -> Float64.below k f -> Float64.below k' f.
Proof. destruct f; simpl; try tauto. lia. Qed.

Lemma Zdigits2_mono a b : 0 <= a <= b -> Zdigits2 a <= Zdigits2 b.
Proof.
  intros [Ha Hab]. destruct (Z.eq_dec a 0) as [->|Hne].
  - simpl. apply Zdigits2_nonneg.
  - rewrite !Zdigits2_log2 by lia.
    pose proof (Z.log2_le_mono a b Hab). lia.
Qed.

Lemma Zdigits2_lt_pow2 a k : 0 <= a -> 0 <= k -> a < 2 ^ k -> Zdigits2 a <= k.
Proof.
  intros Ha Hk Hlt. destruct (Z.eq_dec a 0) as [->|Hne]; [simpl; lia|].
  rewrite Zdigits2_log2 by lia.
  assert (Z.log2 a < k) by (apply Z.log2_lt_pow2; lia). lia.
Qed.

Lemma Zdigits2_mul a b :
  0 <= a -> 0 <= b -> Zdigits2 (a * b) <= Zdigits2 a + Zdigits2 b.
Proof.
  intros Ha Hb.
  destruct (Z.eq_dec a 0) as [->|Hane];
    [rewrite Z.mul_0_l; simpl; apply Zdigits2_nonneg|].
  destruct (Z.eq_dec b 0) as [->|Hbne];
    [rewrite Z.mul_0_r; simpl; pose proof (Zdigits2_nonneg a); lia|].
  rewrite !Zdigits2_log2 by nia.
  pose proof (Z.log2_mul_above a b Ha Hb). lia.
Qed.

Lemma Zdigits2_add a b :
  0 <= a -> 0 <= b -> Zdigits2 (a + b) <= Z.max (Zdigits2 a) (Zdigits2 b) + 1.
Proof.
  intros Ha Hb.
  pose proof (Zdigits2_mono (a + b) (2 * Z.max a b) ltac:(lia)) as Hm.
  assert (Hd : Zdigits2 (2 * Z.max a b) <= Zdigits2 (Z.max a b) + 1).
  { destruct (Z.eq_dec (Z.max a b) 0) as [->|Hne]; [simpl; lia|].
    rewrite !Zdigits2_log2 by lia. rewrite Z.log2_double by lia. lia. }
  assert (Hx : Zdigits2 (Z.max a b) <= Z.max (Zdigits2 a) (Zdigits2 b)).
  { destruct (Z.max_spec a b) as [[_ ->]|[_ ->]]; lia. }
  lia.
Qed.

Lemma Zdigits2_quot a b :
  0 <= a -> 0 < b -> Zdigits2 (a / b) <= Z.max 0 (Zdigits2 a - Zdigits2 b + 1).
Proof.
  intros Ha Hb.
  assert (Hb2 : 2 ^ (Zdigits2 b - 1) <= b).
  { rewrite Zdigits2_log2 by lia.
    replace (Z.log2 b + 1 - 1) with (Z.log2 b) by lia.
    apply Z.log2_spec, Hb. }
  assert (Hdb : 1 <= Zdigits2 b).
  { rewrite Zdigits2_log2 by lia. pose proof (Z.log2_nonneg b). lia. }
  assert (Hle : a / b <= a / 2 ^ (Zdigits2 b - 1)).
  { apply Z.div_le_compat_l; [exact Ha|]. split; [|exact Hb2].
    apply Z.pow_pos_nonneg; lia. }
  pose proof (Z.div_pos a b Ha Hb) as Hq.
  pose proof (Zdigits2_mono _ _ (conj Hq Hle)) as Hm.
  pose proof (Zdigits2_div a (Zdigits2 b - 1) Ha ltac:(lia)). lia.
Qed.

Lemma mul_below kx ky x y :
  Float64.below kx x -> Float64.below ky y -> -1074 <= kx + ky ->
  Float64.below (kx + ky + 1) (Float64.mul x y).
Proof.
  destruct x as [sx|sx| |sx mx ex], y as [sy|sy| |sy my ey];
    simpl; intros Hx Hy Hmin; try exact I.
  apply binary_round_aux_below; [lia | | exact Hmin].
  pose proof (Zdigits2_mul (Zpos mx) (Zpos my) ltac:(lia) ltac:(lia)) as H.
  simpl in H. simpl. lia.
Qed.

Lemma div_core_below m1 e1 m2 e2 k :
  Zpos (digits2_pos m1) + e1 - (Zpos (digits2_pos m2) + e2) + 1 <= k ->
  -1074 <= k ->
  Zdigits2 (fst (fst (SFdiv_core_binary Float64.prec Float64.emax
                        (Zpos m1) e1 (Zpos m2) e2)))
  + snd (fst (SFdiv_core_binary Float64.prec Float64.emax
                (Zpos m1) e1 (Zpos m2) e2)) <= k.
Proof.
  intros Hk Hmin. unfold SFdiv_core_binary.
  set (d1 := Zdigits2 (Zpos m1)). set (d2 := Zdigits2 (Zpos m2)).
  set (e' := Z.min (fexp Float64.prec Float64.emax (d1 + e1 - (d2 + e2))) (e1 - e2)).
  set (s := e1 - e2 - e').
  set (m' := match s with
             | Z0 => Zpos m1
             | Zpos _ => Z.shiftl (Zpos m1) s
             | Zneg _ => 0
             end).
  assert (Hs : 0 <= s) by (subst s e'; lia).
  assert (Hm' : 0 <= m' /\ Zdigits2 m' <= d1 + s).
  { subst m'. destruct s as [|p|p] eqn:Hsp; try lia.
    split; [apply Z.shiftl_nonneg; lia|].
    assert (0 < Z.shiftl (Zpos m1) (Zpos p))
      by (rewrite Z.shiftl_mul_pow2 by lia;
          apply Z.mul_pos_pos; [lia | apply Z.pow_pos_nonneg; lia]).
    rewrite Zdigits2_log2 by assumption.
    rewrite Z.log2_shiftl by lia. subst d1.
    rewrite Zdigits2_log2 by lia. lia. }
  destruct Hm' as [Hm'0 Hm'd].
  pose proof (Zdigits2_quot m' (Zpos m2) Hm'0 ltac:(lia)) as Hq.
  fold d2 in Hq.
  assert (Hdiv : fst (Z.div_eucl m' (Zpos m2)) = m' / Zpos m2) by reflexivity.
  destruct (Z.div_eucl m' (Zpos m2)) as [q r]. cbn [fst snd] in *. subst q.
  assert (He' : e' <= Z.max (d1 + e1 - (d2 + e2) - 53) (-1074)).
  { subst e'. unfold fexp, SpecFloat.emin, Float64.prec, Float64.emax. lia. }
  subst d1 d2. simpl Zdigits2 in *. lia.
Qed.

Lemma div_below kx ly x sy my ey :
  Float64.below kx x -> ly <= Zpos (digits2_pos my) + ey -> -1074 <= kx - ly + 1 ->
  Float64.below (kx - ly + 2) (Float64.div x (S754_finite sy my ey)).
Proof.
  destruct x as [sx|sx| |sx mx ex]; simpl; intros Hx Hy Hmin; try exact I.
  pose proof (div_core_nonneg mx ex my ey) as H0.
  pose proof (div_core_below mx ex my ey (kx - ly + 1) ltac:(lia) Hmin) as H1.
  destruct (SFdiv_core_binary Float64.prec Float64.emax (Zpos mx) ex (Zpos my) ey)
    as [[mz ez] lz]. cbn [fst snd] in *.
  replace (kx - ly + 2) with (kx - ly + 1 + 1) by lia.
  apply binary_round_aux_below; assumption.
Qed.

Lemma shl_align_snd mx ex ez :
  ez <= ex -> snd (shl_align mx ex ez) = ez.
Proof.
  intros H. unfold shl_align.
  destruct (ez - ex) as [|d|d] eqn:Hd; cbn [snd]; lia.
Qed.

Lemma binary_normalize_below m e k :
  Zdigits2 (Z.abs m) + e <= k -> -1074 <= k ->
  Float64.below (k + 1) (binary_normalize Float64.prec Float64.emax m e false).
Proof.
  intros Hk Hmin. unfold binary_normalize.
  destruct m as [|p|p]; [exact I | |]; apply binary_round_below;
    simpl in Hk; lia.
Qed.

Lemma add_below kx ky x y :
  Float64.below kx x -> Float64.below ky y -> -1074 <= Z.max kx ky ->
  Float64.below (Z.max kx ky + 2) (Float64.add x y).
Proof.
  destruct x as [sx|sx| |sx mx ex], y as [sy|sy| |sy my ey];
    simpl; intros Hx Hy Hmin; try exact I; try lia.
  - destruct sx, sy; exact I.
  - destruct sx, sy; exact I.
  - pose proof (shl_align_digits mx ex (Z.min ex ey)) as H1.
    pose proof (shl_align_digits my ey (Z.min ex ey)) as H2.
    rewrite shl_align_snd in H1, H2 by lia.
    set (m1 := fst (shl_align mx ex (Z.min ex ey))) in *.
    set (m2 := fst (shl_align my ey (Z.min ex ey))) in *.
    replace (Z.max kx ky + 2) with (Z.max kx ky + 1 + 1) by lia.
    apply binary_normalize_below; [|lia].
    assert (Habs : Z.abs (cond_Zopp sx (Zpos m1) + cond_Zopp sy (Zpos m2))
                   <= Zpos m1 + Zpos m2)
      by (destruct sx, sy; simpl cond_Zopp; lia).
    pose proof (Zdigits2_mono _ _ (conj (Z.abs_nonneg _) Habs)) as Hm.
    pose proof (Zdigits2_add (Zpos m1) (Zpos m2) ltac:(lia) ltac:(lia)) as Ha.
    simpl Zdigits2 in Ha at 2 3. lia.
Qed.

Lemma to_int_below k f : Float64.below k f -> 1 <= k -> Float64.to_int f < 2 ^ k.
Proof.
  intros Hf Hk.
  assert (Hpow : 0 < 2 ^ k) by (apply Z.pow_pos_nonneg; lia).
  unfold Float64.to_int.
  destruct f as [s|s| |s m e]; simpl in *; try (unfold GoInt.min_int; lia).
  assert (Hval : cond_Zopp s (Z.shiftl (Zpos m) e) < 2 ^ k).
  { pose proof (Z.shiftl_nonneg (Zpos m) e) as Hnn.
    destruct s; simpl; [lia|].
    destruct (Z.eq_dec (Z.shiftl (Zpos m) e) 0) as [->|Hne]; [lia|].
    apply Z.log2_lt_pow2; [lia|].
    rewrite Z.log2_shiftl' by lia.
    pose proof (digits2_pos_log2 m). lia. }
  destruct (GoInt.in_rangeb _); [exact Hval | unfold GoInt.min_int; lia].
Qed.

Lemma of_int_below n k :
  0 <= n < 2 ^ 53 -> n < 2 ^ k -> 0 <= k -> Float64.below k (Float64.of_int n).
Proof.
  intros [Hn Hlt] Hk Hk0.
  destruct (Z.eq_dec n 0) as [->|Hne]; [exact I|].
  destruct (of_int_small n ltac:(lia)) as (m & e & -> & Hmag).
  simpl. rewrite Hmag. apply Zdigits2_lt_pow2; lia.
Qed.

(** A duration of up to 292 years is below [2^36] seconds. *)
Lemma Seconds_below d :
  0 <= d <= GoInt.max_int -> Float64.below 36 (GoTime.Seconds d).
Proof.
  intros [Hd Hmax]. unfold GoTime.Seconds.
  assert (Hsec : 0 <= Z.quot d GoTime.Second < 2 ^ 34).
  { rewrite Z.quot_div_nonneg by (unfold GoTime.Second; lia).
    unfold GoTime.Second, GoInt.max_int in *.
    split; [apply Z.div_pos; lia|].
    apply Z.div_lt_upper_bound; lia. }
  assert (Hnsec : 0 <= Z.rem d GoTime.Second < 2 ^ 30).
  { pose proof (Z.rem_bound_pos d GoTime.Second Hd ltac:(unfold GoTime.Second; lia)).
    unfold GoTime.Second in *. lia. }
  change 36 with (Z.max 34 2 + 2).
  apply add_below; [| |lia].
  - apply of_int_below; lia.
  - change (Float64.of_int 1000000000)
      with (S754_finite false 8388608000000000 (-23)).
    change 2 with (30 - 30 + 2).
    apply div_below; [apply of_int_below; lia | vm_compute; discriminate | lia].
Qed.

(** The rate of a limiter of capacity below [2^24] is below [2^25]. *)
Lemma refillRate_below rl :
  0 < maxLimit rl < 2 ^ 24 -> 0 < timeLImit rl < 2 ^ 53 ->
  Float64.below 25 (refillRate rl).
Proof.
  intros Hm Ht. unfold refillRate.
  destruct (of_int_small (timeLImit rl) Ht) as (m & e & -> & Hmag).
  change 25 with (24 - 1 + 2).
  apply div_below; [apply of_int_below; lia | | lia].
  rewrite Hmag, Zdigits2_log2 by lia.
  pose proof (Z.log2_nonneg (timeLImit rl)). lia.
Qed.

(** With a capacity below [2^24] no call earns [2^62] tokens or more. *)
Lemma tokensToAdd_below rl md now :
  0 < maxLimit rl < 2 ^ 24 -> 0 < timeLImit rl < 2 ^ 53 ->
  tokensToAdd rl md now < 2 ^ 62.
Proof.
  intros Hm Ht.
  destruct (Z.le_gt_cases now (lastSeen md)) as [Hle|Hgt].
  - pose proof (tokensToAdd_nonpos rl md now ltac:(lia) ltac:(lia) Hle). lia.
  - unfold tokensToAdd, timePassed.
    apply to_int_below; [|lia].
    change 62 with (36 + 25 + 1).
    apply mul_below; [| apply refillRate_below; assumption | lia].
    apply Seconds_below.
    unfold GoTime.Since, GoTime.Sub, GoInt.max_int, GoInt.min_int.
    repeat split_ltb; lia.
Qed.

(** ** One call of [Allow] *)

Lemma Allow_new rl apiKey now now' :
  bucket rl apiKey = None ->
  Allow rl apiKey now now' =
  (true, store rl apiKey {| lastSeen := now;
                            tokenCount := GoInt.sub (maxLimit rl) 1 |}).
Proof. unfold Allow, bucket. intros ->. reflexivity. Qed.

Lemma Allow_existing rl apiKey md now now' :
  bucket rl apiKey = Some md ->
  Allow rl apiKey now now' =
  (fst (update rl md now now'), store rl apiKey (snd (update rl md now now'))).
Proof.
  unfold Allow, bucket. intros ->.
  destruct (update rl md now now'); reflexivity.
Qed.

Lemma bucket_store rl apiKey md : bucket (store rl apiKey md) apiKey = Some md.
Proof. unfold bucket, store; simpl. apply lookup_insert_eq. Qed.

Lemma bucket_store_ne rl a b md :
  a <> b -> bucket (store rl a md) b = bucket rl b.
Proof. intros H. unfold bucket, store; simpl. apply lookup_insert_ne, H. Qed.

Lemma store_store rl apiKey md1 md2 :
  store (store rl apiKey md1) apiKey md2 = store rl apiKey md2.
Proof. unfold store; simpl. f_equal. apply insert_insert_eq. Qed.

Lemma store_same rl apiKey md : bucket rl apiKey = Some md -> store rl apiKey md = rl.
Proof.
  unfold bucket, store. intros H. destruct rl as [m c w]; simpl in *.
  f_equal. apply insert_id, H.
Qed.

Lemma Allow_maxLimit rl apiKey now now' :
  maxLimit (snd (Allow rl apiKey now now')) = maxLimit rl.
Proof.
  unfold Allow. destruct (requests rl !! apiKey) as [md|]; [|reflexivity].
  destruct (update rl md now now'); reflexivity.
Qed.

Lemma Allow_timeLImit rl apiKey now now' :
  timeLImit (snd (Allow rl apiKey now now')) = timeLImit rl.
Proof.
  unfold Allow. destruct (requests rl !! apiKey) as [md|]; [|reflexivity].
  destruct (update rl md now now'); reflexivity.
Qed.

(** Calls for one key never touch the bucket of another. *)
Lemma bucket_Allow_ne rl a b now now' :
  a <> b -> bucket (snd (Allow rl a now now')) b = bucket rl b.
Proof.
  intros H. unfold Allow. destruct (requests rl !! a) as [md|]; simpl.
  - destruct (update rl md now now'); simpl. apply bucket_store_ne, H.
  - apply bucket_store_ne, H.
Qed.

(** Without a refill and within capacity, a call only takes a token. *)
Lemma update_no_refill rl md now now' :
  tokensToAdd rl md now <= 0 -> tokenCount md <= maxLimit rl ->
  update rl md now now' = consume md.
Proof.
  intros Hn Hc. unfold update, refill, clamp.
  destruct (Z.ltb_spec 0 (tokensToAdd rl md now)); [lia|].
  destruct (Z.ltb_spec (maxLimit rl) (tokenCount md)); [lia|]. reflexivity.
Qed.

Lemma consume_spec md :
  GoInt.in_range (tokenCount md) ->
  consume md =
  if 0 <? tokenCount md
  then (true, {| lastSeen := lastSeen md; tokenCount := tokenCount md - 1 |})
  else (false, md).
Proof.
  intros Hr. unfold consume.
  destruct (Z.ltb_spec 0 (tokenCount md)); [|reflexivity].
  rewrite sub_exact; [reflexivity|].
  unfold GoInt.in_range, GoInt.min_int, GoInt.max_int in *. lia.
Qed.

Lemma update_store rl apiKey md0 md now now' :
  update (store rl apiKey md0) md now now' = update rl md now now'.
Proof. reflexivity. Qed.

Lemma Allow_store rl apiKey md now now' :
  Allow (store rl apiKey md) apiKey now now' =
  (fst (update rl md now now'), store rl apiKey (snd (update rl md now now'))).
Proof.
  rewrite (Allow_existing _ _ md) by apply bucket_store.
  rewrite update_store, store_store. reflexivity.
Qed.

(** A call at the instant of [lastSeen] takes a token if there is one. *)
Lemma update_same_instant rl md now' :
  0 <= tokenCount md <= maxLimit rl -> maxLimit rl <= GoInt.max_int ->
  update rl md (lastSeen md) now' =
  if 0 <? tokenCount md
  then (true, {| lastSeen := lastSeen md; tokenCount := tokenCount md - 1 |})
  else (false, md).
Proof.
  intros Hc Hm.
  rewrite update_no_refill by (auto using tokensToAdd_same_instant || lia).
  apply consume_spec.
  unfold GoInt.in_range, GoInt.min_int, GoInt.max_int in *. lia.
Qed.

Lemma AllowSeq_cons rl apiKey now now' rest :
  AllowSeq rl ((apiKey, now, now') :: rest) =
  (fst (Allow rl apiKey now now')
     :: fst (AllowSeq (snd (Allow rl apiKey now now')) rest),
   snd (AllowSeq (snd (Allow rl apiKey now now')) rest)).
Proof.
  simpl. destruct (Allow rl apiKey now now') as [ok rl1]. simpl.
  destruct (AllowSeq rl1 rest); reflexivity.
Qed.

Lemma AllowSeq_app rl calls1 calls2 :
  AllowSeq rl (calls1 ++ calls2) =
  (fst (AllowSeq rl calls1) ++ fst (AllowSeq (snd (AllowSeq rl calls1)) calls2),
   snd (AllowSeq (snd (AllowSeq rl calls1)) calls2)).
Proof.
  revert rl. induction calls1 as [|[[k t] t'] rest IH]; intros rl.
  - simpl. destruct (AllowSeq rl calls2); reflexivity.
  - rewrite <- app_comm_cons, !AllowSeq_cons, IH. reflexivity.
Qed.

(** *** The reference configuration: 5 tokens per 60 seconds *)

Lemma tokensToAdd_5_60_twelve rl md :
  maxLimit rl = 5 -> timeLImit rl = 60 ->
  tokensToAdd rl md (lastSeen md + 12 * GoTime.Second) = 1.
Proof.
  intros Hm Ht. unfold tokensToAdd, timePassed, refillRate.
  rewrite Hm, Ht, Since_shift. vm_compute. reflexivity.
Qed.

(** A burst on an existing bucket, at the instant of its [lastSeen]: call
    number [i] (from 0) succeeds while [i] is below the token count. *)
Lemma AllowSeq_burst_store n : forall rl apiKey md,
  0 <= tokenCount md <= maxLimit rl -> maxLimit rl <= GoInt.max_int ->
  AllowSeq (store rl apiKey md) (burst apiKey (lastSeen md) n) =
  (map (fun i => Z.of_nat i <? tokenCount md) (seq 0 n),
   store rl apiKey {| lastSeen := lastSeen md;
                      tokenCount := Z.max 0 (tokenCount md - Z.of_nat n) |}).
Proof.
  induction n as [|n IH]; intros rl apiKey md Hc Hm.
  - simpl. destruct md as [t c]; simpl in *.
    do 3 f_equal. lia.
  - change (burst apiKey (lastSeen md) (S n))
      with ((apiKey, lastSeen md, lastSeen md) :: burst apiKey (lastSeen md) n).
    rewrite AllowSeq_cons, Allow_store, update_same_instant by assumption.
    destruct (Z.ltb_spec 0 (tokenCount md)) as [Hpos|Hzero]; cbn [fst snd].
    + pose proof (IH rl apiKey
                    (mkRequestMetadata (lastSeen md) (tokenCount md - 1))) as IH'.
      cbn [lastSeen tokenCount] in IH'. rewrite IH' by lia.
      cbn [fst snd].
      f_equal.
      * change (seq 0 (S n)) with (0%nat :: seq 1 n).
        rewrite <- seq_shift, map_cons, map_map. f_equal.
        { symmetry. apply Z.ltb_lt. exact Hpos. }
        apply map_ext. intros i.
        destruct (Z.ltb_spec (Z.of_nat i) (tokenCount md - 1));
          destruct (Z.ltb_spec (Z.of_nat (S i)) (tokenCount md)); lia || reflexivity.
      * do 2 f_equal. lia.
    + rewrite (IH rl apiKey md) by assumption.
      cbn [fst snd]. f_equal.
      * change (seq 0 (S n)) with (0%nat :: seq 1 n).
        rewrite <- seq_shift, map_cons, map_map. f_equal.
        { symmetry. apply Z.ltb_ge. lia. }
        apply map_ext. intros i.
        destruct (Z.ltb_spec (Z.of_nat i) (tokenCount md));
          destruct (Z.ltb_spec (Z.of_nat (S i)) (tokenCount md)); lia || reflexivity.
      * do 2 f_equal. lia.
Qed.

(** A burst for a key that has no bucket yet. *)
Lemma AllowSeq_burst_new n rl apiKey now :
  bucket rl apiKey = None -> 0 < maxLimit rl <= GoInt.max_int ->
  AllowSeq rl (burst apiKey now (S n)) =
  (true :: map (fun i => Z.of_nat i <? maxLimit rl - 1) (seq 0 n),
   store rl apiKey {| lastSeen := now;
                      tokenCount := Z.max 0 (maxLimit rl - 1 - Z.of_nat n) |}).
Proof.
  intros Hnone Hm.
  change (burst apiKey now (S n)) with ((apiKey, now, now) :: burst apiKey now n).
  rewrite AllowSeq_cons, Allow_new by exact Hnone. cbn [fst snd].
  rewrite sub_exact
    by (unfold GoInt.in_range, GoInt.min_int, GoInt.max_int in *; lia).
  pose proof (AllowSeq_burst_store n rl apiKey
                (mkRequestMetadata now (maxLimit rl - 1))) as Hrest.
  cbn [lastSeen tokenCount] in Hrest. rewrite Hrest by lia.
  reflexivity.
Qed.

(** The store after a burst of six calls: the bucket is empty. *)
Lemma burst_5_60_six apiKey now :
  AllowSeq (NewRateLimiter 5 60) (burst apiKey now 6) =
  ([true; true; true; true; true; false],
   store (NewRateLimiter 5 60) apiKey {| lastSeen := now; tokenCount := 0 |}).
Proof.
  rewrite AllowSeq_burst_new by (reflexivity || (simpl; unfold GoInt.max_int; lia)).
  reflexivity.
Qed.

(** *** Call sequences and other keys *)

Lemma AllowSeq_maxLimit calls : forall rl,
  maxLimit (snd (AllowSeq rl calls)) = maxLimit rl.
Proof.
  induction calls as [|[[k t] t'] rest IH]; intros rl; [reflexivity|].
  rewrite AllowSeq_cons. cbn [snd]. rewrite IH. apply Allow_maxLimit.
Qed.

Lemma bucket_AllowSeq_ne b calls : forall rl,
  Forall (fun call => fst (fst call) <> b) calls ->
  bucket (snd (AllowSeq rl calls)) b = bucket rl b.
Proof.
  induction calls as [|[[k t] t'] rest IH]; intros rl Hall; [reflexivity|].
  inversion Hall as [|? ? Hk Hrest]; subst. simpl in Hk.
  rewrite AllowSeq_cons. cbn [snd]. rewrite IH by exact Hrest.
  apply bucket_Allow_ne, Hk.
Qed.

(** *** Typing and capacity are kept by [Allow] *)

Lemma well_typed_New c w :
  GoInt.in_range c -> GoInt.in_range w -> well_typed (NewRateLimiter c w).
Proof.
  intros Hc Hw. repeat split; try apply Hc; try apply Hw;
    unfold bucket in H; simpl in H; rewrite lookup_empty in H; discriminate.
Qed.

Lemma well_typed_store rl apiKey md :
  well_typed rl -> GoInt.in_range (tokenCount md) ->
  well_typed (store rl apiKey md).
Proof.
  intros (Hm & Ht & Hb) Hmd. split; [exact Hm|]. split; [exact Ht|].
  intros k md' Hk. destruct (decide (apiKey = k)) as [->|Hne].
  - rewrite bucket_store in Hk. injection Hk as <-. exact Hmd.
  - rewrite bucket_store_ne in Hk by exact Hne. eapply Hb, Hk.
Qed.

Lemma update_in_range rl md now now' :
  GoInt.in_range (maxLimit rl) -> GoInt.in_range (tokenCount md) ->
  GoInt.in_range (tokenCount (snd (update rl md now now'))).
Proof.
  intros Hm Hmd. unfold update, consume, clamp, refill.
  repeat case_match; simpl in *; auto using wrap_in_range;
    try apply wrap_in_range.
Qed.

Lemma Allow_well_typed rl apiKey now now' :
  well_typed rl -> well_typed (snd (Allow rl apiKey now now')).
Proof.
  intros Hwt. destruct (bucket rl apiKey) as [md|] eqn:Hb.
  - rewrite (Allow_existing _ _ md) by exact Hb. cbn [snd].
    apply well_typed_store; [exact Hwt|].
    destruct Hwt as (Hm & _ & Hbs).
    apply update_in_range; [exact Hm | eapply Hbs, Hb].
  - rewrite Allow_new by exact Hb. cbn [snd].
    apply well_typed_store; [exact Hwt | apply wrap_in_range].
Qed.

Lemma within_capacity_store rl apiKey md :
  within_capacity rl -> 0 <= tokenCount md <= maxLimit rl ->
  within_capacity (store rl apiKey md).
Proof.
  intros Hb Hmd k md' Hk. change (maxLimit (store rl apiKey md)) with (maxLimit rl).
  destruct (decide (apiKey = k)) as [->|Hne].
  - rewrite bucket_store in Hk. injection Hk as <-. exact Hmd.
  - rewrite bucket_store_ne in Hk by exact Hne. eapply Hb, Hk.
Qed.

(** Lines 41-59 keep a bucket within capacity unless line 46 overflows. *)
Lemma update_within_capacity rl md now now' :
  0 < maxLimit rl <= GoInt.max_int ->
  0 <= tokenCount md <= maxLimit rl ->
  tokenCount md + tokensToAdd rl md now <= GoInt.max_int ->
  0 <= tokenCount (snd (update rl md now now')) <= maxLimit rl.
Proof.
  intros Hm Hc Hno. unfold update, consume, clamp, refill.
  destruct (Z.ltb_spec 0 (tokensToAdd rl md now)) as [Hadd|Hadd];
    cbn [tokenCount lastSeen].
  - rewrite add_exact by int_bounds.
    repeat (split_ltb; cbn [fst snd tokenCount lastSeen] in * );
      rewrite ?sub_exact by int_bounds; lia.
  - repeat (split_ltb; cbn [fst snd tokenCount lastSeen] in * );
      rewrite ?sub_exact by int_bounds; lia.
Qed.

(** The capacity bound survives every call in which line 46 stays inside
    [int]. *)
Lemma Allow_within_capacity rl apiKey now now' :
  0 < maxLimit rl <= GoInt.max_int ->
  within_capacity rl -> no_overflow rl apiKey now ->
  within_capacity (snd (Allow rl apiKey now now')).
Proof.
  intros Hm Hcap Hno. destruct (bucket rl apiKey) as [md|] eqn:Hb.
  - rewrite (Allow_existing _ _ md) by exact Hb. cbn [snd].
    apply within_capacity_store; [exact Hcap|].
    apply update_within_capacity; [exact Hm | eapply Hcap, Hb | apply Hno, Hb].
  - rewrite Allow_new by exact Hb. cbn [snd].
    apply within_capacity_store; [exact Hcap|]. cbn [tokenCount].
    rewrite sub_exact by int_bounds. lia.
Qed.

(** The capacity bound holds after every sequence of calls in which
    line 46 never overflows. *)
Lemma AllowSeq_within_capacity calls : forall rl,
  0 < maxLimit rl <= GoInt.max_int ->
  within_capacity rl -> no_overflow_run rl calls ->
  within_capacity (snd (AllowSeq rl calls)).
Proof.
  induction calls as [|[[k t] t'] rest IH]; intros rl Hm Hcap Hrun;
    [exact Hcap|].
  destruct Hrun as [Hno Hrest].
  rewrite AllowSeq_cons. cbn [snd]. apply IH.
  - rewrite Allow_maxLimit. exact Hm.
  - apply Allow_within_capacity; assumption.
  - exact Hrest.
Qed.

Lemma within_capacity_New c w : within_capacity (NewRateLimiter c w).
Proof.
  intros k md H. unfold bucket in H. simpl in H.
  rewrite lookup_empty in H. discriminate.
Qed.

(** A call is turned down only on an empty bucket that earned nothing,
    and then changes nothing, as long as line 46 stays inside [int]. *)
Lemma Allow_rejected_unchanged rl apiKey now now' :
  0 < maxLimit rl ->
  within_capacity rl -> no_overflow rl apiKey now ->
  fst (Allow rl apiKey now now') = false ->
  snd (Allow rl apiKey now now') = rl /\
  exists md, bucket rl apiKey = Some md /\
             tokenCount md = 0 /\ tokensToAdd rl md now <= 0.
Proof.
  intros Hm Hcap Hno. destruct (bucket rl apiKey) as [md|] eqn:Hb.
  2:{ rewrite Allow_new by exact Hb. discriminate. }
  rewrite (Allow_existing _ _ md) by exact Hb. cbn [fst snd].
  pose proof (Hcap _ _ Hb) as Hc. pose proof (Hno _ Hb) as Hn.
  pose proof (tokensToAdd_in_range rl md now) as Hr.
  unfold update, consume, clamp, refill.
  destruct (Z.ltb_spec 0 (tokensToAdd rl md now)) as [Hadd|Hadd];
    cbn [tokenCount lastSeen].
  - rewrite add_exact by int_bounds.
    repeat (split_ltb; cbn [fst snd tokenCount lastSeen] in * );
      (discriminate || lia).
  - repeat (split_ltb; cbn [fst snd tokenCount lastSeen] in * );
      try discriminate; try lia.
    intros _. split; [apply store_same, Hb|].
    exists md. repeat split; [lia | exact Hadd].
Qed.

(** *** Calls that earn nothing *)

Lemma AllowSeq_timeLImit calls : forall rl,
  timeLImit (snd (AllowSeq rl calls)) = timeLImit rl.
Proof.
  induction calls as [|[[k t] t'] rest IH]; intros rl; [reflexivity|].
  rewrite AllowSeq_cons. cbn [snd]. rewrite IH. apply Allow_timeLImit.
Qed.

Lemma tokensToAdd_ext rl1 rl2 md1 md2 now :
  maxLimit rl1 = maxLimit rl2 -> timeLImit rl1 = timeLImit rl2 ->
  lastSeen md1 = lastSeen md2 ->
  tokensToAdd rl1 md1 now = tokensToAdd rl2 md2 now.
Proof.
  intros Hm Ht Hl. unfold tokensToAdd, timePassed, refillRate.
  rewrite Hm, Ht, Hl. reflexivity.
Qed.

Lemma update_keeps_lastSeen rl md now now' :
  tokensToAdd rl md now <= 0 ->
  lastSeen (snd (update rl md now now')) = lastSeen md.
Proof.
  intros Hzero. unfold update, consume, clamp, refill.
  destruct (Z.ltb_spec 0 (tokensToAdd rl md now)); [lia|].
  repeat (split_ltb; cbn [fst snd lastSeen]); reflexivity.
Qed.

(** Any number of calls that earn nothing leave [lastSeen] where it was. *)
Lemma idle_calls_keep_lastSeen apiKey (times : list (Z * Z)) : forall rl md,
  bucket rl apiKey = Some md ->
  Forall (fun t => tokensToAdd rl md (fst t) <= 0) times ->
  exists md1,
    bucket (snd (AllowSeq rl (map (fun t => (apiKey, fst t, snd t)) times)))
      apiKey = Some md1 /\
    lastSeen md1 = lastSeen md.
Proof.
  induction times as [|[t t'] times IH]; intros rl md Hb Hall.
  - exists md. split; [exact Hb | reflexivity].
  - inversion Hall as [|? ? Ht Hrest]; subst. cbn [fst] in Ht.
    cbn [map fst snd]. rewrite AllowSeq_cons. cbn [snd].
    rewrite (Allow_existing _ _ md) by exact Hb. cbn [snd].
    pose proof (update_keeps_lastSeen rl md t t' Ht) as Hls.
    destruct (IH (store rl apiKey (snd (update rl md t t')))
                (snd (update rl md t t'))) as (md1 & Hb1 & Hls1).
    + apply bucket_store.
    + eapply Forall_impl; [exact Hrest|]. intros u Hu. cbn beta in *.
      rewrite tokensToAdd_store.
      rewrite (tokensToAdd_lastSeen rl _ md (fst u) Hls). exact Hu.
    + exists md1. split; [exact Hb1 | congruence].
Qed.

(** *** Limiters of everyday size

    With a capacity below [2^24] and a window below [2^53] seconds, line
    46 cannot overflow, whatever the clock reads. *)

Lemma no_overflow_below rl apiKey now :
  0 < maxLimit rl < 2 ^ 24 -> 0 < timeLImit rl < 2 ^ 53 ->
  within_capacity rl -> no_overflow rl apiKey now.
Proof.
  intros Hm Ht Hcap md Hb.
  pose proof (Hcap _ _ Hb). pose proof (tokensToAdd_below rl md now Hm Ht).
  unfold GoInt.max_int. lia.
Qed.

Lemma no_overflow_run_below calls : forall rl,
  0 < maxLimit rl < 2 ^ 24 -> 0 < timeLImit rl < 2 ^ 53 ->
  within_capacity rl -> no_overflow_run rl calls.
Proof.
  induction calls as [|[[k t] t'] rest IH]; intros rl Hm Ht Hcap; [exact I|].
  split; [apply no_overflow_below; assumption|].
  apply IH.
  - rewrite Allow_maxLimit. exact Hm.
  - rewrite Allow_timeLImit. exact Ht.
  - apply Allow_within_capacity;
      [unfold GoInt.max_int; lia | exact Hcap |
       apply no_overflow_below; assumption].
Qed.

(** Every bucket of such a limiter holds between 0 and [maxLimit] tokens
    after every sequence of calls. *)
Lemma capacity_kept_below C W calls :
  0 < C < 2 ^ 24 -> 0 < W < 2 ^ 53 ->
  within_capacity (snd (AllowSeq (NewRateLimiter C W) calls)).
Proof.
  intros HC HW. apply AllowSeq_within_capacity.
  - simpl. unfold GoInt.max_int. lia.
  - apply within_capacity_New.
  - apply no_overflow_run_below; [exact HC | exact HW | apply within_capacity_New].
Qed.

(** And a call it turns down changes nothing. *)
Lemma rejected_unchanged_below C W calls apiKey now now' :
  0 < C < 2 ^ 24 -> 0 < W < 2 ^ 53 ->
  fst (Allow (snd (AllowSeq (NewRateLimiter C W) calls)) apiKey now now') = false ->
  snd (Allow (snd (AllowSeq (NewRateLimiter C W) calls)) apiKey now now') =
  snd (AllowSeq (NewRateLimiter C W) calls).
Proof.
  intros HC HW Hno.
  pose proof (capacity_kept_below C W calls HC HW) as Hcap.
  assert (Hm : maxLimit (snd (AllowSeq (NewRateLimiter C W) calls)) = C)
    by apply AllowSeq_maxLimit.
  assert (Ht : timeLImit (snd (AllowSeq (NewRateLimiter C W) calls)) = W)
    by apply AllowSeq_timeLImit.
  apply Allow_rejected_unchanged; [lia | exact Hcap | | exact Hno].
  apply no_overflow_below; [lia | lia | exact Hcap].
Qed.

(** [drained_5_60] is where a burst of six calls at time 0 leaves the
    reference limiter. *)
Lemma drained_5_60_reached :
  snd (AllowSeq (NewRateLimiter 5 60) (burst "k" 0 6)) = drained_5_60.
Proof. rewrite burst_5_60_six. reflexivity. Qed.

(** ** The claims *)

(** C2. For a key without a bucket, [Allow] returns [true] and leaves a
    bucket for the key whose [lastSeen] is the clock reading of the call
    and whose [tokenCount] is [maxLimit - 1] (in [int] arithmetic, which is
    the mathematical [maxLimit - 1] for every [int] above the least). *)
Theorem Allow_first_sight rl apiKey now now' :
  bucket rl apiKey = None ->
  fst (Allow rl apiKey now now') = true /\
  bucket (snd (Allow rl apiKey now now')) apiKey =
    Some {| lastSeen := now; tokenCount := GoInt.sub (maxLimit rl) 1 |} /\
  (GoInt.min_int < maxLimit rl <= GoInt.max_int ->
   GoInt.sub (maxLimit rl) 1 = maxLimit rl - 1).
Proof.
  intros Hnone. rewrite Allow_new by exact Hnone. simpl.
  split; [reflexivity|]. split; [apply bucket_store|].
  intros Hr. apply sub_exact.
  unfold GoInt.in_range, GoInt.min_int, GoInt.max_int in *. lia.
Qed.

Lemma Allow_first_sight_witness :
  bucket (NewRateLimiter 5 60) "k" = None /\
  fst (Allow (NewRateLimiter 5 60) "k" 1000 1001) = true /\
  bucket (snd (Allow (NewRateLimiter 5 60) "k" 1000 1001)) "k" =
    Some {| lastSeen := 1000; tokenCount := 4 |}.
Proof.
  assert (H : bucket (NewRateLimiter 5 60) "k" = None) by reflexivity.
  split; [exact H|].
  destruct (Allow_first_sight (NewRateLimiter 5 60) "k" 1000 1001 H)
    as (Hok & Hb & _).
  split; [exact Hok | exact Hb].
Defined.

(** C3. With 5 tokens per 60 seconds, six calls for one fresh key at one
    instant return true, true, true, true, true, false. *)
Theorem burst_exhaustion apiKey now :
  fst (AllowSeq (NewRateLimiter 5 60) (burst apiKey now 6)) =
  [true; true; true; true; true; false].
Proof. rewrite burst_5_60_six. reflexivity. Qed.

(** C5. With 5 tokens per 60 seconds, once a burst of six calls has
    emptied the bucket, a call 12 seconds later returns true and the call
    right after it returns false: one token has come back. *)
Theorem refill_after_twelve_seconds apiKey now :
  fst (AllowSeq (NewRateLimiter 5 60)
         (burst apiKey now 6 ++ burst apiKey (now + 12 * GoTime.Second) 2)) =
  [true; true; true; true; true; false; true; false].
Proof.
  rewrite AllowSeq_app, burst_5_60_six. cbn [fst snd].
  change (burst apiKey (now + 12 * GoTime.Second) 2)
    with [(apiKey, now + 12 * GoTime.Second, now + 12 * GoTime.Second);
          (apiKey, now + 12 * GoTime.Second, now + 12 * GoTime.Second)].
  rewrite AllowSeq_cons, Allow_store.
  assert (Hup : update (NewRateLimiter 5 60)
                  {| lastSeen := now; tokenCount := 0 |}
                  (now + 12 * GoTime.Second) (now + 12 * GoTime.Second) =
                (true, {| lastSeen := now + 12 * GoTime.Second;
                          tokenCount := 0 |})).
  { unfold update, refill.
    rewrite (tokensToAdd_5_60_twelve _ (mkRequestMetadata now 0))
      by reflexivity.
    reflexivity. }
  rewrite Hup. cbn [fst snd].
  rewrite AllowSeq_cons, Allow_store.
  rewrite (update_same_instant _ (mkRequestMetadata (now + 12 * GoTime.Second) 0))
    by (simpl; unfold GoInt.max_int; lia).
  reflexivity.
Qed.

(** C6. A call for key [a] leaves the bucket of every other key [b] as it
    was, present or absent; so after any calls for [a], at any times, a
    key [b] not seen before is still let in, with a bucket of its own. *)
Theorem key_independence (a b : string) :
  a <> b ->
  (forall rl now now',
      bucket (snd (Allow rl a now now')) b = bucket rl b) /\
  (forall rl (times : list (Z * Z)) now now',
      bucket rl b = None ->
      fst (Allow (snd (AllowSeq rl (map (fun t => (a, fst t, snd t)) times)))
             b now now') = true /\
      bucket (snd (Allow (snd (AllowSeq rl (map (fun t => (a, fst t, snd t)) times)))
                     b now now')) b =
        Some {| lastSeen := now; tokenCount := GoInt.sub (maxLimit rl) 1 |}).
Proof.
  intros Hab. split.
  - intros rl now now'. apply bucket_Allow_ne, Hab.
  - intros rl times now now' Hnone.
    set (rl' := snd (AllowSeq rl (map (fun t => (a, fst t, snd t)) times))).
    assert (Hb : bucket rl' b = None).
    { subst rl'. rewrite bucket_AllowSeq_ne; [exact Hnone|].
      induction times as [|t times IH]; constructor; [exact Hab | exact IH]. }
    rewrite Allow_new by exact Hb. cbn [fst snd].
    split; [reflexivity|]. rewrite bucket_store.
    subst rl'. rewrite AllowSeq_maxLimit. reflexivity.
Qed.

Lemma key_independence_witness :
  "a" <> "b" /\
  fst (AllowSeq (NewRateLimiter 5 60)
         (map (fun t => ("a", fst t, snd t)) (replicate 6 (0, 0)))) =
    [true; true; true; true; true; false] /\
  fst (Allow (snd (AllowSeq (NewRateLimiter 5 60)
                     (map (fun t => ("a", fst t, snd t)) (replicate 6 (0, 0)))))
         "b" 0 0) = true.
Proof.
  assert (Hab : "a" <> "b") by discriminate.
  split; [exact Hab|]. split; [vm_compute; reflexivity|].
  destruct (key_independence "a" "b" Hab) as [_ Hfresh].
  exact (proj1 (Hfresh (NewRateLimiter 5 60) (replicate 6 (0, 0)) 0 0 eq_refl)).
Defined.

(** The call after a run of calls that earned nothing. *)
Lemma Allow_after_idle_calls rl apiKey md (times : list (Z * Z)) t2 t2' :
  bucket rl apiKey = Some md ->
  Forall (fun t => tokensToAdd rl md (fst t) <= 0) times ->
  exists md1,
    bucket (snd (AllowSeq rl (map (fun t => (apiKey, fst t, snd t)) times)))
      apiKey = Some md1 /\
    lastSeen md1 = lastSeen md /\
    Allow (snd (AllowSeq rl (map (fun t => (apiKey, fst t, snd t)) times)))
      apiKey t2 t2' =
    (fst (consume (clamp rl (if 0 <? tokensToAdd rl md t2
                             then {| lastSeen := t2';
                                     tokenCount :=
                                       GoInt.add (tokenCount md1)
                                                 (tokensToAdd rl md t2) |}
                             else md1))),
     store (snd (AllowSeq rl (map (fun t => (apiKey, fst t, snd t)) times)))
       apiKey
       (snd (consume (clamp rl (if 0 <? tokensToAdd rl md t2
                                then {| lastSeen := t2';
                                        tokenCount :=
                                          GoInt.add (tokenCount md1)
                                                    (tokensToAdd rl md t2) |}
                                else md1))))).
Proof.
  intros Hb Hzero.
  destruct (idle_calls_keep_lastSeen apiKey times rl md Hb Hzero)
    as (md1 & Hb1 & Hls).
  exists md1. split; [exact Hb1|]. split; [exact Hls|].
  rewrite (Allow_existing _ _ md1) by exact Hb1.
  unfold update, refill.
  rewrite (tokensToAdd_ext _ rl md1 md t2
             (AllowSeq_maxLimit _ _) (AllowSeq_timeLImit _ _) Hls).
  unfold clamp. rewrite AllowSeq_maxLimit. reflexivity.
Qed.

(** C4, as amended.  The whole-token count is the one the code computes:
    [int(elapsed.Seconds() * (float64(maxLimit) / float64(timeLImit)))] in
    binary64, with the time measured from [lastSeen].  A call that finds
    this count not positive leaves [lastSeen] alone, and so does any run
    of such calls, whatever their number and their clock readings.  The
    call after them still measures the time from that same [lastSeen],
    the last moment tokens were added, not from the call before it: when
    its count is positive it adds the count of the whole interval to the
    bucket (line 46), sets [lastSeen] to the clock reading of line 47,
    caps the bucket at [maxLimit] and takes its token if there is one. *)
Theorem fraction_retained rl apiKey md (times : list (Z * Z)) t2 t2' :
  let count := fun now =>
    Float64.to_int
      (Float64.mul (GoTime.Seconds (GoTime.Since now (lastSeen md)))
                   (Float64.div (Float64.of_int (maxLimit rl))
                                (Float64.of_int (timeLImit rl)))) in
  let rl1 := snd (AllowSeq rl (map (fun t => (apiKey, fst t, snd t)) times)) in
  bucket rl apiKey = Some md ->
  Forall (fun t => count (fst t) <= 0) times ->
  exists md1,
    bucket rl1 apiKey = Some md1 /\
    lastSeen md1 = lastSeen md /\
    (count t2 <= 0 ->
     exists md2,
       bucket (snd (Allow rl1 apiKey t2 t2')) apiKey = Some md2 /\
       lastSeen md2 = lastSeen md) /\
    (0 < count t2 ->
     let sum := GoInt.add (tokenCount md1) (count t2) in
     let capped := if maxLimit rl <? sum then maxLimit rl else sum in
     Allow rl1 apiKey t2 t2' =
     if 0 <? capped
     then (true, store rl1 apiKey {| lastSeen := t2';
                                     tokenCount := GoInt.sub capped 1 |})
     else (false, store rl1 apiKey {| lastSeen := t2';
                                      tokenCount := capped |})).
Proof.
  intros count rl1 Hb Hzero.
  change count with (tokensToAdd rl md) in *.
  destruct (Allow_after_idle_calls rl apiKey md times t2 t2' Hb Hzero)
    as (md1 & Hb1 & Hls & Hcall).
  fold rl1 in Hb1, Hcall.
  exists md1. split; [exact Hb1|]. split; [exact Hls|]. split.
  - intros Hidle. rewrite Hcall. cbn [snd]. rewrite bucket_store.
    eexists. split; [reflexivity|].
    destruct (Z.ltb_spec 0 (tokensToAdd rl md t2)); [lia|].
    unfold consume, clamp.
    repeat (split_ltb; cbn [fst snd lastSeen tokenCount]); exact Hls.
  - intros Hpos sum capped. rewrite Hcall.
    destruct (Z.ltb_spec 0 (tokensToAdd rl md t2)); [|lia].
    unfold consume, clamp. fold sum. subst capped.
    cbn [tokenCount lastSeen].
    destruct (maxLimit rl <? sum); cbn [tokenCount lastSeen fst snd];
      split_ltb; reflexivity.
Qed.

(** On the drained reference bucket, calls after 5 and after 10 seconds
    earn nothing and leave [lastSeen] at 0.  The call after 14 seconds is
    let in on the token of the whole 14 seconds, though the 4 seconds
    since the call before it earn none. *)
Lemma fraction_retained_witness :
  bucket drained_5_60 "k" = Some {| lastSeen := 0; tokenCount := 0 |} /\
  fst (AllowSeq drained_5_60 (map (fun t => ("k", fst t, snd t)) idle_times)) =
    [false; false] /\
  bucket (snd (AllowSeq drained_5_60
                 (map (fun t => ("k", fst t, snd t)) idle_times))) "k" =
    Some {| lastSeen := 0; tokenCount := 0 |} /\
  tokensToAdd drained_5_60 {| lastSeen := 10 * GoTime.Second; tokenCount := 0 |}
    (14 * GoTime.Second) = 0 /\
  Allow (snd (AllowSeq drained_5_60
                (map (fun t => ("k", fst t, snd t)) idle_times)))
    "k" (14 * GoTime.Second) (14 * GoTime.Second) =
  (true,
   store (snd (AllowSeq drained_5_60
                 (map (fun t => ("k", fst t, snd t)) idle_times)))
     "k" {| lastSeen := 14 * GoTime.Second; tokenCount := 0 |}).
Proof.
  assert (Hb : bucket drained_5_60 "k" = Some {| lastSeen := 0; tokenCount := 0 |})
    by (vm_compute; reflexivity).
  assert (Hz : Forall (fun t => tokensToAdd drained_5_60
                                  {| lastSeen := 0; tokenCount := 0 |}
                                  (fst t) <= 0) idle_times)
    by (repeat constructor; vm_compute; discriminate).
  assert (Hb1 : bucket (snd (AllowSeq drained_5_60
                               (map (fun t => ("k", fst t, snd t)) idle_times)))
                  "k" = Some {| lastSeen := 0; tokenCount := 0 |})
    by (vm_compute; reflexivity).
  split; [exact Hb|]. split; [vm_compute; reflexivity|].
  split; [exact Hb1|]. split; [vm_compute; reflexivity|].
  destruct (fraction_retained drained_5_60 "k" _ idle_times
              (14 * GoTime.Second) (14 * GoTime.Second) Hb Hz)
    as (md1 & Hmd1 & _ & _ & Hlater).
  rewrite Hb1 in Hmd1. injection Hmd1 as <-.
  etransitivity; [apply Hlater; vm_compute; reflexivity|].
  vm_compute. reflexivity.
Defined.

(** C4 takes the whole-token count to be the exact
    [floor(elapsedSeconds * capacity / windowSeconds)].  With that count
    it fails: at one token per 90 days, a call one nanosecond short of the
    90 days has earned no whole token, yet the binary64 product of the
    code reaches 1, the call is let in and [lastSeen] moves. *)
Lemma exact_count_zero_yet_lastSeen_moves :
  0 < maxLimit spent_1_90days /\ 0 < timeLImit spent_1_90days /\
  bucket spent_1_90days "k" = Some {| lastSeen := 0; tokenCount := 0 |} /\
  spec_tokensToAdd spent_1_90days {| lastSeen := 0; tokenCount := 0 |}
    7775999999999999 = 0 /\
  AllowAt spent_1_90days "k" 7775999999999999 =
    (true, store spent_1_90days "k"
             {| lastSeen := 7775999999999999; tokenCount := 0 |}) /\
  ~ (forall rl apiKey md now now',
        0 < maxLimit rl -> 0 < timeLImit rl ->
        bucket rl apiKey = Some md ->
        spec_tokensToAdd rl md now = 0 ->
        exists md',
          bucket (snd (Allow rl apiKey now now')) apiKey = Some md' /\
          lastSeen md' = lastSeen md).
Proof.
  assert (Hb : bucket spent_1_90days "k" =
               Some {| lastSeen := 0; tokenCount := 0 |})
    by (vm_compute; reflexivity).
  assert (Hfloor : spec_tokensToAdd spent_1_90days
                     {| lastSeen := 0; tokenCount := 0 |} 7775999999999999 = 0)
    by (vm_compute; reflexivity).
  assert (Hcall : AllowAt spent_1_90days "k" 7775999999999999 =
                  (true, store spent_1_90days "k"
                           {| lastSeen := 7775999999999999; tokenCount := 0 |}))
    by (vm_compute; reflexivity).
  split; [vm_compute; reflexivity|]. split; [vm_compute; reflexivity|].
  split; [exact Hb|]. split; [exact Hfloor|]. split; [exact Hcall|].
  intros Hall.
  destruct (Hall spent_1_90days "k" _ 7775999999999999 7775999999999999
              ltac:(vm_compute; reflexivity) ltac:(vm_compute; reflexivity)
              Hb Hfloor) as (md' & Hb' & Hls).
  unfold AllowAt in Hcall. rewrite Hcall in Hb'. cbn [snd] in Hb'.
  rewrite bucket_store in Hb'. injection Hb' as <-. discriminate.
Qed.

(** C7. The wrapped handler, in this order: answers 401 without calling
    the inner handler when the [X-API-KEY] header is absent or empty;
    else answers 401 without calling it when the key is not in the table;
    else answers 429 without calling it when [Allow] says no; and
    otherwise hands the request, as it came, to the inner handler. *)
Theorem admission_order {App : Type} (apiKeys : gmap string bool)
    (next : Http.Handler App) (now now' : Z) (r : Http.Request)
    (limiter : RateLimiter) (app : App) :
  let apiKey := Http.Get (Http.Header r) "X-API-KEY" in
  let result := RateLimiterMiddleware apiKeys next now now' r (limiter, app) in
  (Http.Header r !! "X-API-KEY" = None -> apiKey = EmptyString) /\
  (apiKey = EmptyString ->
   result = (Http.Error "Missing API key" 401, (limiter, app))) /\
  (apiKey <> EmptyString -> apiKeys !! apiKey = None ->
   result = (Http.Error "Invalid API key" 401, (limiter, app))) /\
  (apiKey <> EmptyString -> is_Some (apiKeys !! apiKey) ->
   fst (Allow limiter apiKey now now') = false ->
   result = (Http.Error "Rate limit exceeded" 429,
             (snd (Allow limiter apiKey now now'), app))) /\
  (apiKey <> EmptyString -> is_Some (apiKeys !! apiKey) ->
   fst (Allow limiter apiKey now now') = true ->
   result = (fst (next r app),
             (snd (Allow limiter apiKey now now'), snd (next r app)))).
Proof.
  intros apiKey result. subst result. unfold RateLimiterMiddleware.
  fold apiKey. cbn [fst snd].
  split; [|split; [|split; [|split]]].
  - intros Hnone. subst apiKey. unfold Http.Get. rewrite Hnone. reflexivity.
  - intros ->. reflexivity.
  - intros Hne Hkey.
    destruct (String.eqb_spec apiKey EmptyString) as [He|_]; [contradiction|].
    unfold isValidApiKey. rewrite Hkey. reflexivity.
  - intros Hne [v Hkey] Hno.
    destruct (String.eqb_spec apiKey EmptyString) as [He|_]; [contradiction|].
    unfold isValidApiKey. rewrite Hkey. cbn [negb].
    destruct (Allow limiter apiKey now now') as [ok limiter'].
    cbn [fst snd] in *. subst ok. reflexivity.
  - intros Hne [v Hkey] Hyes.
    destruct (String.eqb_spec apiKey EmptyString) as [He|_]; [contradiction|].
    unfold isValidApiKey. rewrite Hkey. cbn [negb].
    destruct (Allow limiter apiKey now now') as [ok limiter'].
    cbn [fst snd] in *. subst ok. cbn [negb].
    destruct (next r app); reflexivity.
Qed.

(** Four requests, one for each outcome: no key, an unknown key, a
    valid key with tokens left, a valid key on an empty bucket. *)
Lemma admission_order_witness :
  RateLimiterMiddleware example_keys helloHandler 0 0
    request_without_key (NewRateLimiter 5 60, 0%nat) =
    (Http.Error "Missing API key" 401, (NewRateLimiter 5 60, 0%nat)) /\
  RateLimiterMiddleware example_keys helloHandler 0 0
    (request_with_key "unknown") (NewRateLimiter 5 60, 0%nat) =
    (Http.Error "Invalid API key" 401, (NewRateLimiter 5 60, 0%nat)) /\
  fst (RateLimiterMiddleware example_keys helloHandler 0 0
         (request_with_key "apikey123") (NewRateLimiter 5 60, 0%nat)) =
    {| Http.StatusCode := 200; Http.ResponseBody := "Hello World" |} /\
  fst (RateLimiterMiddleware example_keys helloHandler 0 0
         (request_with_key "apikey123")
         (store (NewRateLimiter 5 60) "apikey123"
            {| lastSeen := 0; tokenCount := 0 |}, 0%nat)) =
    Http.Error "Rate limit exceeded" 429.
Proof.
  split; [|split; [|split]].
  - apply (admission_order example_keys helloHandler 0 0 request_without_key
             (NewRateLimiter 5 60) 0%nat).
    reflexivity.
  - apply (admission_order example_keys helloHandler 0 0
             (request_with_key "unknown") (NewRateLimiter 5 60) 0%nat).
    + discriminate.
    + vm_compute. reflexivity.
  - rewrite (proj2 (proj2 (proj2 (proj2
               (admission_order example_keys helloHandler 0 0
                  (request_with_key "apikey123") (NewRateLimiter 5 60) 0%nat))))).
    + reflexivity.
    + discriminate.
    + exists true. vm_compute. reflexivity.
    + vm_compute. reflexivity.
  - rewrite (proj1 (proj2 (proj2 (proj2
               (admission_order example_keys helloHandler 0 0
                  (request_with_key "apikey123")
                  (store (NewRateLimiter 5 60) "apikey123"
                     {| lastSeen := 0; tokenCount := 0 |}) 0%nat))))).
    + reflexivity.
    + discriminate.
    + exists true. vm_compute. reflexivity.
    + vm_compute. reflexivity.
Defined.

(** C8, as the code has it. A call that returns [true] changes the bucket
    of its key: it creates it, or takes a token from it, or moves its
    [lastSeen] forward.  A call that returns [false] without crediting
    tokens changes nothing at all.  (The limiter has positive capacity
    and window, and the clock does not run backwards within the call.) *)
Theorem Allow_changes_bucket_when_allowed rl apiKey now now' :
  well_typed rl -> 0 < maxLimit rl -> 0 < timeLImit rl -> now <= now' ->
  (fst (Allow rl apiKey now now') = true ->
   bucket (snd (Allow rl apiKey now now')) apiKey <> bucket rl apiKey) /\
  (fst (Allow rl apiKey now now') = false ->
   (forall md, bucket rl apiKey = Some md -> tokensToAdd rl md now <= 0) ->
   snd (Allow rl apiKey now now') = rl).
Proof.
  intros (Hm & Ht & Hbs) Hcap Hwin Hclock.
  destruct (bucket rl apiKey) as [md|] eqn:Hb.
  2:{ rewrite Allow_new by exact Hb. cbn [fst snd]. split; [|discriminate].
      intros _. rewrite bucket_store. discriminate. }
  rewrite (Allow_existing _ _ md) by exact Hb. cbn [fst snd].
  rewrite bucket_store.
  pose proof (Hbs _ _ Hb) as Hmd.
  pose proof (tokensToAdd_in_range rl md now) as Hadd.
  split.
  - intros Hok Heq. injection Heq as Heq.
    destruct (Z.ltb_spec 0 (tokensToAdd rl md now)) as [Hpos|Hnpos].
    + (* tokens were credited: [lastSeen] moved *)
      pose proof (tokensToAdd_pos_elapsed rl md now ltac:(lia) ltac:(lia) Hpos).
      assert (Hls : lastSeen (snd (update rl md now now')) = now').
      { unfold update, consume, clamp, refill.
        destruct (Z.ltb_spec 0 (tokensToAdd rl md now)); [|lia].
        repeat (split_ltb; cbn [fst snd lastSeen]); reflexivity. }
      rewrite Heq in Hls. lia.
    + (* nothing credited: a token was taken *)
      revert Hok Heq. unfold update, consume, clamp, refill.
      destruct (Z.ltb_spec 0 (tokensToAdd rl md now)); [lia|].
      repeat (split_ltb; cbn [fst snd tokenCount lastSeen] in * );
        try discriminate; intros _ Heq;
        apply (f_equal tokenCount) in Heq; cbn [tokenCount] in Heq;
        rewrite sub_exact in Heq by int_bounds; lia.
  - intros Hno Hzero. specialize (Hzero md eq_refl).
    revert Hno. unfold update, consume, clamp, refill.
    destruct (Z.ltb_spec 0 (tokensToAdd rl md now)); [lia|].
    repeat (split_ltb; cbn [fst snd tokenCount lastSeen] in * );
      try discriminate; try lia.
    intros _. apply store_same, Hb.
Qed.

Lemma Allow_changes_bucket_when_allowed_witness :
  well_typed drained_5_60 /\
  0 < maxLimit drained_5_60 /\ 0 < timeLImit drained_5_60 /\
  fst (Allow drained_5_60 "k" (7 * GoTime.Second) (7 * GoTime.Second)) = false /\
  snd (Allow drained_5_60 "k" (7 * GoTime.Second) (7 * GoTime.Second)) =
    drained_5_60 /\
  fst (Allow drained_5_60 "k" (12 * GoTime.Second) (12 * GoTime.Second)) = true /\
  bucket (snd (Allow drained_5_60 "k" (12 * GoTime.Second) (12 * GoTime.Second)))
    "k" <> bucket drained_5_60 "k".
Proof.
  assert (Hwt : well_typed drained_5_60).
  { apply well_typed_store; [apply well_typed_New|]; vm_compute;
      split; discriminate. }
  assert (Hm : 0 < maxLimit drained_5_60) by reflexivity.
  assert (Ht : 0 < timeLImit drained_5_60) by reflexivity.
  assert (Hno : fst (Allow drained_5_60 "k" (7 * GoTime.Second)
                       (7 * GoTime.Second)) = false)
    by (vm_compute; reflexivity).
  assert (Hyes : fst (Allow drained_5_60 "k" (12 * GoTime.Second)
                        (12 * GoTime.Second)) = true)
    by (vm_compute; reflexivity).
  split; [exact Hwt|]. split; [exact Hm|]. split; [exact Ht|].
  split; [exact Hno|]. split; [|split; [exact Hyes|]].
  - apply (Allow_changes_bucket_when_allowed drained_5_60 "k"
             (7 * GoTime.Second) (7 * GoTime.Second) Hwt Hm Ht (Z.le_refl _));
      [exact Hno|].
    intros md Hmd. vm_compute in Hmd. injection Hmd as <-.
    vm_compute. discriminate.
  - apply (Allow_changes_bucket_when_allowed drained_5_60 "k"
             (12 * GoTime.Second) (12 * GoTime.Second) Hwt Hm Ht (Z.le_refl _)).
    exact Hyes.
Defined.

(** C8 says that every call changes the bucket of its key.  It fails:
    the second call on a one-token bucket, at the instant of the first,
    returns [false] and leaves the bucket as it was. *)
Lemma rejected_call_changes_nothing :
  fst (AllowAt spent_1_60 "k" 0) = false /\
  bucket (snd (AllowAt spent_1_60 "k" 0)) "k" = bucket spent_1_60 "k" /\
  ~ (forall rl apiKey now now',
        bucket (snd (Allow rl apiKey now now')) apiKey <> bucket rl apiKey).
Proof.
  assert (H : bucket (snd (AllowAt spent_1_60 "k" 0)) "k" = bucket spent_1_60 "k")
    by (vm_compute; reflexivity).
  split; [vm_compute; reflexivity|]. split; [exact H|].
  intros Hall. exact (Hall spent_1_60 "k" 0 0 H).
Qed.

(** C1 says that after every call every bucket holds between 0 and
    [maxLimit] tokens.  At [huge_limiter], of positive capacity and
    window, the code breaks it: the second call credits [3 * 2^61] tokens
    to a bucket of [2^62 - 1]; the sum leaves [int], comes back negative,
    passes the test of line 50, and stays in the bucket. *)
Theorem refill_overflow_breaks_capacity_bound :
  0 < maxLimit huge_limiter /\ 0 < timeLImit huge_limiter /\
  bucket (snd (AllowSeq huge_limiter huge_calls)) "k" =
    Some {| lastSeen := 1500000000; tokenCount := -6917529027641081857 |} /\
  ~ within_capacity (snd (AllowSeq huge_limiter huge_calls)).
Proof.
  assert (H : bucket (snd (AllowSeq huge_limiter huge_calls)) "k" =
              Some {| lastSeen := 1500000000;
                      tokenCount := -6917529027641081857 |})
    by (vm_compute; reflexivity).
  split; [reflexivity|]. split; [reflexivity|]. split; [exact H|].
  intros Hcap. specialize (Hcap "k" _ H). simpl in Hcap. lia.
Qed.

(** C10 says that a call which returns [false] leaves the bucket as it
    was, since nothing was credited.  At [huge_limiter] the code breaks
    it: the second call credits [3 * 2^61] tokens, the sum on line 46
    wraps, and the call returns [false] having changed both fields of
    the bucket. *)
Theorem refill_overflow_rejects_and_changes :
  bucket (snd (AllowSeq huge_limiter (take 1 huge_calls))) "k" =
    Some {| lastSeen := 0; tokenCount := 2 ^ 62 - 1 |} /\
  tokensToAdd huge_limiter {| lastSeen := 0; tokenCount := 2 ^ 62 - 1 |}
    1500000000 = 3 * 2 ^ 61 /\
  fst (AllowSeq huge_limiter huge_calls) = [true; false] /\
  bucket (snd (AllowSeq huge_limiter huge_calls)) "k" =
    Some {| lastSeen := 1500000000; tokenCount := -6917529027641081857 |}.
Proof. repeat split; vm_compute; reflexivity. Qed.

(** ** Concurrent callers *)

Lemma sum_list_with_insert {A} (f : A -> nat) (l : list A) : forall i x y,
  l !! i = Some y ->
  (sum_list_with f (<[i:=x]> l) + f y = sum_list_with f l + f x)%nat.
Proof.
  induction l as [|a l IH]; intros [|i] x y H; simpl in *; try discriminate.
  - injection H as ->. lia.
  - specialize (IH i x y H). lia.
Qed.

Lemma sum_list_with_lookup {A} (f : A -> nat) (l : list A) i x :
  l !! i = Some x -> (f x <= sum_list_with f l)%nat.
Proof.
  revert i. induction l as [|a l IH]; intros [|i] H; simpl in *; try discriminate.
  - injection H as ->. lia.
  - specialize (IH i H). lia.
Qed.

Lemma sum_list_with_lookup2 {A} (f : A -> nat) (l : list A) : forall i j x y,
  i <> j -> l !! i = Some x -> l !! j = Some y ->
  (f x + f y <= sum_list_with f l)%nat.
Proof.
  induction l as [|a l IH]; intros [|i] [|j] x y Hne Hi Hj; simpl in *;
    try discriminate; try congruence.
  - injection Hi as ->. pose proof (sum_list_with_lookup f l j y Hj). lia.
  - injection Hj as ->. pose proof (sum_list_with_lookup f l i x Hi). lia.
  - assert (i <> j) by congruence. specialize (IH i j x y ltac:(assumption) Hi Hj). lia.
Qed.

(** Some element carries weight whenever the sum is positive. *)
Lemma sum_list_with_pos {A} (f : A -> nat) (l : list A) :
  (0 < sum_list_with f l)%nat -> exists i x, l !! i = Some x /\ (0 < f x)%nat.
Proof.
  induction l as [|a l IH]; simpl; [lia|]. intros H.
  destruct (f a) eqn:Hfa.
  - destruct (IH ltac:(lia)) as (i & x & Hi & Hx). exists (S i), x. auto.
  - exists 0%nat, a. split; [reflexivity | lia].
Qed.

Lemma idle_threads (l : list Concurrent.thread) :
  sum_list_with Concurrent.critical l = 0%nat ->
  (exists i, l !! i = Some Concurrent.Entering) \/
  Forall (fun th => Concurrent.is_returned th = true) l.
Proof.
  induction l as [|th l IH]; simpl; intros H; [right; constructor|].
  destruct th; simpl in H; try lia.
  - left. exists 0%nat. reflexivity.
  - destruct (IH H) as [[i Hi]|Hall].
    + left. exists (S i). exact Hi.
    + right. constructor; [reflexivity | exact Hall].
Qed.

Lemma returned_counts (l : list Concurrent.thread) :
  Forall (fun th => Concurrent.is_returned th = true) l ->
  sum_list_with Concurrent.decided l = length l /\
  length (filter (fun th => th = Concurrent.Returned true) l) =
    sum_list_with Concurrent.granted l.
Proof.
  induction 1 as [|th l Hth _ [IHd IHg]]; [split; reflexivity|].
  destruct th as [| | | |[]]; try discriminate.
  - rewrite filter_cons_True by reflexivity. simpl. lia.
  - rewrite filter_cons_False by discriminate. simpl. lia.
Qed.

Lemma sum_list_with_replicate {A} (f : A -> nat) (x : A) (n : nat) :
  f x = 0%nat -> sum_list_with f (replicate n x) = 0%nat.
Proof. intros H. induction n as [|n IH]; simpl; lia. Qed.

(** The counters after goroutine [i] moves from [Hi]'s state to [x]. *)
Ltac counters Hi x :=
  pose proof (sum_list_with_insert Concurrent.critical _ _ x _ Hi);
  pose proof (sum_list_with_insert Concurrent.decided _ _ x _ Hi);
  pose proof (sum_list_with_insert Concurrent.granted _ _ x _ Hi);
  cbn [Concurrent.critical Concurrent.decided Concurrent.granted] in *.

(** A second caller inside the critical section contradicts the count. *)
Ltac two_inside Hcrit i j Hi Hj Hne :=
  pose proof (sum_list_with_lookup2 Concurrent.critical _ i j _ _ Hne Hi Hj);
  cbn [Concurrent.critical] in *;
  exfalso; destruct (Concurrent.mutex _); lia.

Section ConcurrentBurst.

Import Concurrent.

Variables (apiKey : string) (now C W : Z) (n : nat).
Hypothesis HC : 0 < C <= GoInt.max_int.

Lemma inv_init : inv apiKey now C W n (init (NewRateLimiter C W) n).
Proof.
  unfold inv, init. cbn [limiter mutex threads].
  rewrite !sum_list_with_replicate by reflexivity.
  repeat split; try reflexivity.
  - apply length_replicate.
  - lia.
  - intros i found Hi. apply lookup_replicate in Hi as [Hi _]. discriminate.
Qed.

Lemma inv_step c c' :
  inv apiKey now C W n c -> step apiKey now c c' -> inv apiKey now C W n c'.
Proof.
  intros (Hm & Ht & Hlen & Hcrit & Hbucket & Hgr & Hlook) Hstep.
  pose proof HC as HC'.
  inversion Hstep as [c0 i Hi Hmu | c0 i Hi | c0 i Hi | c0 i md Hi Hmd | c0 i ok Hi];
    subst c0; subst c'; unfold inv; cbn [limiter mutex threads].
  - (* Lock *)
    counters Hi Locked. rewrite Hmu in Hcrit.
    replace (sum_list_with decided (<[i:=Locked]> (threads c)))
      with (sum_list_with decided (threads c)) by lia.
    replace (sum_list_with granted (<[i:=Locked]> (threads c)))
      with (sum_list_with granted (threads c)) by lia.
    repeat split; try assumption; try lia.
    + rewrite length_insert. exact Hlen.
    + intros j found Hj. destruct (decide (i = j)) as [->|Hne].
      * rewrite list_lookup_insert_eq in Hj by (eapply lookup_lt_Some, Hi).
        discriminate.
      * rewrite list_lookup_insert_ne in Hj by exact Hne. eapply Hlook, Hj.
  - (* line 32 *)
    counters Hi (Looked (bool_decide (is_Some (requests (limiter c) !! apiKey)))).
    replace (sum_list_with decided (<[i:=_]> (threads c)))
      with (sum_list_with decided (threads c)) by lia.
    replace (sum_list_with granted (<[i:=_]> (threads c)))
      with (sum_list_with granted (threads c)) by lia.
    repeat split; try assumption; try lia.
    + rewrite length_insert. exact Hlen.
    + intros j found Hj. destruct (decide (i = j)) as [->|Hne].
      * rewrite list_lookup_insert_eq in Hj by (eapply lookup_lt_Some, Hi).
        injection Hj as <-. reflexivity.
      * rewrite list_lookup_insert_ne in Hj by exact Hne. eapply Hlook, Hj.
  - (* lines 33-39: a new bucket *)
    counters Hi (Unlocking true).
    pose proof (Hlook _ _ Hi) as Hfound. symmetry in Hfound.
    apply bool_decide_eq_false in Hfound.
    destruct (bucket (limiter c) apiKey) as [md|] eqn:Hb;
      [exfalso; apply Hfound; eauto|].
    destruct (sum_list_with decided (threads c)) as [|d] eqn:Hd; [|discriminate].
    replace (sum_list_with decided (<[i:=_]> (threads c))) with 1%nat by lia.
    replace (sum_list_with granted (<[i:=_]> (threads c)))
      with (S (sum_list_with granted (threads c))) by lia.
    rewrite bucket_store, Hm.
    repeat split; try assumption; try lia.
    + rewrite length_insert. exact Hlen.
    + rewrite sub_exact by int_bounds. do 2 f_equal. lia.
    + intros j found Hj. destruct (decide (i = j)) as [->|Hne].
      * rewrite list_lookup_insert_eq in Hj by (eapply lookup_lt_Some, Hi).
        discriminate.
      * rewrite list_lookup_insert_ne in Hj by exact Hne.
        two_inside Hcrit i j Hi Hj Hne.
  - (* lines 41-59: an existing bucket *)
    change (requests (limiter c) !! apiKey) with (bucket (limiter c) apiKey) in Hmd.
    rewrite Hmd in Hbucket.
    destruct (sum_list_with decided (threads c)) as [|d] eqn:Hd; [discriminate|].
    injection Hbucket as Hmd'. subst md.
    pose proof (update_same_instant (limiter c)
                  {| lastSeen := now; tokenCount := C - Z.min (Z.of_nat (S d)) C |}
                  now) as Hup.
    cbn [lastSeen tokenCount] in Hup. rewrite Hup by lia. clear Hup.
    rewrite bucket_store.
    destruct (Z.ltb_spec 0 (C - Z.min (Z.of_nat (S d)) C)) as [Hleft|Hnone];
      cbn [fst snd].
    + counters Hi (Unlocking true).
      replace (sum_list_with decided (<[i:=_]> (threads c))) with (S (S d)) by lia.
      replace (sum_list_with granted (<[i:=_]> (threads c)))
        with (S (sum_list_with granted (threads c))) by lia.
      repeat split; try assumption; try lia.
      * rewrite length_insert. exact Hlen.
      * do 2 f_equal. lia.
      * intros j found Hj. destruct (decide (i = j)) as [->|Hne].
        -- rewrite list_lookup_insert_eq in Hj by (eapply lookup_lt_Some, Hi).
           discriminate.
        -- rewrite list_lookup_insert_ne in Hj by exact Hne.
           two_inside Hcrit i j Hi Hj Hne.
    + counters Hi (Unlocking false).
      replace (sum_list_with decided (<[i:=_]> (threads c))) with (S (S d)) by lia.
      replace (sum_list_with granted (<[i:=_]> (threads c)))
        with (sum_list_with granted (threads c)) by lia.
      repeat split; try assumption; try lia.
      * rewrite length_insert. exact Hlen.
      * do 2 f_equal. lia.
      * intros j found Hj. destruct (decide (i = j)) as [->|Hne].
        -- rewrite list_lookup_insert_eq in Hj by (eapply lookup_lt_Some, Hi).
           discriminate.
        -- rewrite list_lookup_insert_ne in Hj by exact Hne.
           two_inside Hcrit i j Hi Hj Hne.
  - (* Unlock *)
    counters Hi (Returned ok).
    pose proof (sum_list_with_lookup critical _ _ _ Hi) as Hin.
    cbn [critical] in Hin.
    replace (sum_list_with decided (<[i:=_]> (threads c)))
      with (sum_list_with decided (threads c)) by lia.
    replace (sum_list_with granted (<[i:=_]> (threads c)))
      with (sum_list_with granted (threads c)) by (destruct ok; lia).
    repeat split; try assumption.
    + rewrite length_insert. exact Hlen.
    + destruct (mutex c); lia.
    + intros j found Hj. destruct (decide (i = j)) as [->|Hne].
      * rewrite list_lookup_insert_eq in Hj by (eapply lookup_lt_Some, Hi).
        discriminate.
      * rewrite list_lookup_insert_ne in Hj by exact Hne. eapply Hlook, Hj.
Qed.

Lemma inv_reachable c :
  reachable apiKey now (NewRateLimiter C W) n c -> inv apiKey now C W n c.
Proof.
  unfold reachable. revert c.
  apply (rtc_ind_r (inv apiKey now C W n)); [apply inv_init|].
  intros c c' _ Hstep Hinv. exact (inv_step c c' Hinv Hstep).
Qed.

End ConcurrentBurst.

(** Unless every call has returned, some goroutine can move. *)
Lemma inv_progress apiKey now C W n c :
  Concurrent.inv apiKey now C W n c ->
  (exists c', Concurrent.step apiKey now c c') \/
  Forall (fun th => Concurrent.is_returned th = true) (Concurrent.threads c).
Proof.
  intros (_ & _ & _ & Hcrit & _ & _ & Hlook).
  destruct (Concurrent.mutex c) eqn:Hmu.
  - left.
    destruct (sum_list_with_pos Concurrent.critical (Concurrent.threads c)
                ltac:(lia)) as (i & th & Hi & Hth).
    destruct th as [| |found|ok|ok]; simpl in Hth; try lia.
    + eexists. apply (Concurrent.step_lookup _ _ c i Hi).
    + pose proof (Hlook _ _ Hi) as Hfound. destruct found.
      * symmetry in Hfound. apply bool_decide_eq_true in Hfound.
        destruct Hfound as [md Hmd].
        eexists. apply (Concurrent.step_update _ _ c i md Hi Hmd).
      * eexists. apply (Concurrent.step_create _ _ c i Hi).
    + eexists. apply (Concurrent.step_unlock _ _ c i ok Hi).
  - destruct (idle_threads _ Hcrit) as [[i Hi]|Hall]; [left|right; exact Hall].
    eexists. apply (Concurrent.step_lock _ _ c i Hi Hmu).
Qed.

(** Every step uses up one of the four steps of some call. *)
Lemma step_work_left apiKey now c c' :
  Concurrent.step apiKey now c c' ->
  Concurrent.work_left c = S (Concurrent.work_left c').
Proof.
  intros Hstep. unfold Concurrent.work_left.
  inversion Hstep as [c0 i Hi Hmu | c0 i Hi | c0 i Hi | c0 i md Hi Hmd | c0 i ok Hi];
    subst; cbn [Concurrent.threads];
    match goal with
    | |- context [<[i:=?x]> _] =>
        pose proof (sum_list_with_insert Concurrent.remaining _ _ x _ Hi) as H
    end;
    cbn [Concurrent.remaining] in H; lia.
Qed.

(** One schedule among all: a goroutine that finds the mutex free runs its
    call to the end, and does to the limiter what [Allow] does. *)
Lemma run_to_completion apiKey now c i :
  Concurrent.threads c !! i = Some Concurrent.Entering ->
  Concurrent.mutex c = false ->
  rtc (Concurrent.step apiKey now) c
    {| Concurrent.limiter := snd (Allow (Concurrent.limiter c) apiKey now now);
       Concurrent.mutex := false;
       Concurrent.threads :=
         <[i := Concurrent.Returned
                  (fst (Allow (Concurrent.limiter c) apiKey now now))]>
           (Concurrent.threads c) |}.
Proof.
  intros Hi Hmu. pose proof (lookup_lt_Some _ _ _ Hi) as Hlt.
  eapply rtc_l; [apply (Concurrent.step_lock _ _ c i Hi Hmu)|].
  eapply rtc_l.
  { apply (Concurrent.step_lookup _ _ _ i). cbn.
    apply list_lookup_insert_eq, Hlt. }
  cbn [Concurrent.limiter Concurrent.mutex Concurrent.threads].
  rewrite list_insert_insert_eq.
  destruct (requests (Concurrent.limiter c) !! apiKey) as [md|] eqn:Hb.
  - rewrite bool_decide_eq_true_2 by eauto.
    eapply rtc_l.
    { apply (Concurrent.step_update _ _ _ i md); cbn;
        [apply list_lookup_insert_eq, Hlt | exact Hb]. }
    eapply rtc_l.
    { eapply (Concurrent.step_unlock _ _ _ i). cbn.
      apply list_lookup_insert_eq. rewrite length_insert. exact Hlt. }
    cbn [Concurrent.limiter Concurrent.mutex Concurrent.threads].
    rewrite !list_insert_insert_eq.
    rewrite (Allow_existing _ _ md) by exact Hb. apply rtc_refl.
  - rewrite bool_decide_eq_false_2 by (intros [? ?]; discriminate).
    eapply rtc_l.
    { apply (Concurrent.step_create _ _ _ i); cbn.
      apply list_lookup_insert_eq, Hlt. }
    eapply rtc_l.
    { eapply (Concurrent.step_unlock _ _ _ i). cbn.
      apply list_lookup_insert_eq. rewrite length_insert. exact Hlt. }
    cbn [Concurrent.limiter Concurrent.mutex Concurrent.threads].
    rewrite !list_insert_insert_eq.
    rewrite Allow_new by exact Hb. apply rtc_refl.
Qed.

Lemma returned_halted apiKey now c :
  Forall (fun th => Concurrent.is_returned th = true) (Concurrent.threads c) ->
  Concurrent.halted apiKey now c.
Proof.
  intros Hall c' Hstep. rewrite Forall_lookup in Hall.
  inversion Hstep as [c0 i Hi Hmu | c0 i Hi | c0 i Hi | c0 i md Hi Hmd | c0 i ok Hi];
    specialize (Hall _ _ Hi); discriminate.
Qed.

(** Every schedule can be run on to the end. *)
Lemma runs_to_the_end apiKey now C W n :
  0 < C <= GoInt.max_int ->
  forall k c,
    Concurrent.work_left c = k ->
    Concurrent.inv apiKey now C W n c ->
    exists c', rtc (Concurrent.step apiKey now) c c' /\
               Concurrent.halted apiKey now c'.
Proof.
  intros HC k. induction k as [|k IH]; intros c Hk Hinv;
    destruct (inv_progress _ _ _ _ _ _ Hinv) as [[c1 Hstep]|Hall];
    try (exists c; split; [apply rtc_refl | apply returned_halted, Hall]).
  - pose proof (step_work_left _ _ _ _ Hstep). lia.
  - pose proof (step_work_left _ _ _ _ Hstep) as Hw.
    destruct (IH c1 ltac:(lia)
                (inv_step apiKey now C W n HC c c1 Hinv Hstep))
      as (c' & Hrun & Hhalt).
    exists c'. split; [eapply rtc_l; eassumption | exact Hhalt].
Qed.

(** C9. [n] goroutines call [Allow] for one key of a fresh limiter with
    [C] tokens while the clock stands still.  Under every schedule: at
    most one goroutine is between [Lock] and [Unlock], and what it found
    on line 32 is still true of the bucket when it goes on; never more
    than [C] calls have been let in; the schedule can be run on until
    nothing moves, and every step brings that nearer; and when nothing can
    move any more, all [n] calls have returned and exactly [min n C] of
    them returned [true]. *)
Theorem serialized_burst apiKey now C W n c :
  0 < C <= GoInt.max_int ->
  Concurrent.reachable apiKey now (NewRateLimiter C W) n c ->
  (sum_list_with Concurrent.critical (Concurrent.threads c) <= 1)%nat /\
  (forall i found,
      Concurrent.threads c !! i = Some (Concurrent.Looked found) ->
      found = bool_decide (is_Some (bucket (Concurrent.limiter c) apiKey))) /\
  Z.of_nat (sum_list_with Concurrent.granted (Concurrent.threads c)) <= C /\
  (exists c', rtc (Concurrent.step apiKey now) c c' /\
              Concurrent.halted apiKey now c') /\
  (forall c', Concurrent.step apiKey now c c' ->
              Concurrent.work_left c = S (Concurrent.work_left c')) /\
  (Concurrent.halted apiKey now c ->
   length (Concurrent.threads c) = n /\
   Forall (fun th => Concurrent.is_returned th = true) (Concurrent.threads c) /\
   Z.of_nat (Concurrent.admissions c) = Z.min (Z.of_nat n) C).
Proof.
  intros HC Hreach.
  pose proof (inv_reachable apiKey now C W n HC c Hreach) as Hinv.
  pose proof (inv_progress _ _ _ _ _ _ Hinv) as Hprog.
  pose proof (runs_to_the_end apiKey now C W n HC _ c eq_refl Hinv) as Hend.
  destruct Hinv as (_ & _ & Hlen & Hcrit & _ & Hgr & Hlook).
  split; [destruct (Concurrent.mutex c); lia|].
  split; [exact Hlook|].
  split; [lia|]. split; [exact Hend|]. split; [apply step_work_left|].
  intros Hhalt.
  destruct Hprog as [[c' Hstep]|Hall]; [exfalso; exact (Hhalt c' Hstep)|].
  destruct (returned_counts _ Hall) as [Hd Hadm].
  split; [exact Hlen|]. split; [exact Hall|].
  unfold Concurrent.admissions. rewrite Hadm, Hgr, Hd, Hlen. reflexivity.
Qed.

(** Two callers, one token: the schedule that runs them one after the
    other ends with one call let in. *)
Lemma serialized_burst_witness :
  0 < 1 <= GoInt.max_int /\
  Concurrent.reachable "k" 0 (NewRateLimiter 1 60) 2 Concurrent.two_callers_done /\
  Concurrent.halted "k" 0 Concurrent.two_callers_done /\
  Z.of_nat (Concurrent.admissions Concurrent.two_callers_done) = 1.
Proof.
  assert (HC : 0 < 1 <= GoInt.max_int) by (unfold GoInt.max_int; lia).
  assert (Hreach : Concurrent.reachable "k" 0 (NewRateLimiter 1 60) 2
                     Concurrent.two_callers_done).
  { unfold Concurrent.reachable.
    eapply rtc_trans.
    { apply (run_to_completion "k" 0 _ 0%nat); reflexivity. }
    eapply rtc_trans.
    { apply (run_to_completion "k" 0 _ 1%nat); reflexivity. }
    match goal with
    | |- rtc _ ?x ?y => replace x with y; [apply rtc_refl|]
    end.
    vm_compute. reflexivity. }
  assert (Hhalt : Concurrent.halted "k" 0 Concurrent.two_callers_done).
  { intros c' Hstep.
    inversion Hstep as [c0 i Hi Hmu | c0 i Hi | c0 i Hi | c0 i md Hi Hmd | c0 i ok Hi];
      destruct i as [|[|i]]; discriminate. }
  split; [exact HC|]. split; [exact Hreach|]. split; [exact Hhalt|].
  apply (serialized_burst "k" 0 1 60 2 _ HC Hreach). exact Hhalt.
Defined.

(** * Further properties of the code *)

(** ** The registry *)

Lemma seen_Allow rl apiKey now now' :
  seen (snd (Allow rl apiKey now now')) = {[apiKey]} ∪ seen rl.
Proof.
  unfold seen, Allow. destruct (requests rl !! apiKey) as [md|].
  - destruct (update rl md now now'). cbn [snd store requests].
    apply dom_insert_L.
  - cbn [snd store requests]. apply dom_insert_L.
Qed.

Lemma seen_AllowSeq calls : forall rl,
  seen (snd (AllowSeq rl calls)) = called calls ∪ seen rl.
Proof.
  induction calls as [|[[k t] t'] rest IH]; intros rl.
  - unfold called. simpl. symmetry. apply (left_id_L ∅ (∪)).
  - rewrite AllowSeq_cons. cbn [snd]. rewrite IH, seen_Allow.
    unfold called. simpl.
    rewrite (assoc_L (∪)). f_equal. apply (comm_L (∪)).
Qed.

(** X1. A limiter made by [NewRateLimiter] starts without buckets, and
    calls only ever add them: after any calls it has a bucket for exactly
    the keys that were called, none is ever removed, and its capacity and
    window are the ones it was made with. *)
Theorem registry_holds_called_keys C W calls :
  seen (NewRateLimiter C W) = ∅ /\
  seen (snd (AllowSeq (NewRateLimiter C W) calls)) = called calls /\
  (forall more, seen (snd (AllowSeq (NewRateLimiter C W) calls)) ⊆
                seen (snd (AllowSeq (NewRateLimiter C W) (calls ++ more)))) /\
  maxLimit (snd (AllowSeq (NewRateLimiter C W) calls)) = C /\
  timeLImit (snd (AllowSeq (NewRateLimiter C W) calls)) = W.
Proof.
  assert (Hnew : seen (NewRateLimiter C W) = ∅) by apply dom_empty_L.
  split; [exact Hnew|].
  split; [rewrite seen_AllowSeq, Hnew; apply (right_id_L ∅ (∪))|].
  split; [|split; [apply AllowSeq_maxLimit | apply AllowSeq_timeLImit]].
  intros more. rewrite AllowSeq_app. cbn [snd].
  rewrite (seen_AllowSeq more). apply union_subseteq_r.
Qed.

(** ** Limiters of everyday size, again *)

(** X2. With a capacity below [2^24] and a window below [2^53] seconds,
    every bucket holds between 0 and [maxLimit] tokens after every
    sequence of calls, whatever the keys and the clock readings. *)
Theorem everyday_capacity_bound C W calls apiKey md :
  0 < C < 2 ^ 24 -> 0 < W < 2 ^ 53 ->
  bucket (snd (AllowSeq (NewRateLimiter C W) calls)) apiKey = Some md ->
  0 <= tokenCount md <= C.
Proof.
  intros HC HW Hb.
  pose proof (capacity_kept_below C W calls HC HW _ _ Hb) as H.
  rewrite AllowSeq_maxLimit in H. exact H.
Qed.

Lemma everyday_capacity_bound_witness :
  0 < 5 < 2 ^ 24 /\ 0 < 60 < 2 ^ 53 /\
  bucket (snd (AllowSeq (NewRateLimiter 5 60)
                 (burst "k" 0 3 ++ burst "k" (3600 * GoTime.Second) 1))) "k" =
    Some {| lastSeen := 3600 * GoTime.Second; tokenCount := 4 |} /\
  0 <= 4 <= 5.
Proof.
  assert (HC : 0 < 5 < 2 ^ 24) by lia.
  assert (HW : 0 < 60 < 2 ^ 53) by lia.
  assert (Hb : bucket (snd (AllowSeq (NewRateLimiter 5 60)
                 (burst "k" 0 3 ++ burst "k" (3600 * GoTime.Second) 1))) "k" =
               Some {| lastSeen := 3600 * GoTime.Second; tokenCount := 4 |})
    by (vm_compute; reflexivity).
  split; [exact HC|]. split; [exact HW|]. split; [exact Hb|].
  exact (everyday_capacity_bound 5 60 _ "k" _ HC HW Hb).
Defined.

Lemma everyday_reached C W calls :
  0 < C < 2 ^ 24 -> 0 < W < 2 ^ 53 ->
  0 < maxLimit (snd (AllowSeq (NewRateLimiter C W) calls)) < 2 ^ 24 /\
  0 < timeLImit (snd (AllowSeq (NewRateLimiter C W) calls)) < 2 ^ 53 /\
  within_capacity (snd (AllowSeq (NewRateLimiter C W) calls)).
Proof.
  intros HC HW. rewrite AllowSeq_maxLimit, AllowSeq_timeLImit.
  split; [exact HC|]. split; [exact HW|]. apply capacity_kept_below; assumption.
Qed.

Lemma rejected_run_unchanged calls : forall rl,
  0 < maxLimit rl < 2 ^ 24 -> 0 < timeLImit rl < 2 ^ 53 ->
  within_capacity rl ->
  Forall (fun ok => ok = false) (fst (AllowSeq rl calls)) ->
  snd (AllowSeq rl calls) = rl.
Proof.
  induction calls as [|[[k t] t'] rest IH]; intros rl Hm Ht Hcap Hall;
    [reflexivity|].
  rewrite AllowSeq_cons in *. cbn [fst snd] in *.
  inversion Hall as [|? ? Hno Hrest]; subst.
  destruct (Allow_rejected_unchanged rl k t t' ltac:(lia) Hcap
              (no_overflow_below rl k t Hm Ht Hcap) Hno) as [Heq _].
  rewrite Heq in *. apply IH; assumption.
Qed.

(** X3. Being turned down costs nothing.  On a limiter of everyday size,
    after any history, a run of calls that all return [false] leaves the
    whole store as it was: no token is lost and no [lastSeen] is moved,
    so the refill the caller is waiting for is not put off. *)
Theorem rejected_calls_leave_no_trace C W history calls :
  0 < C < 2 ^ 24 -> 0 < W < 2 ^ 53 ->
  Forall (fun ok => ok = false)
    (fst (AllowSeq (snd (AllowSeq (NewRateLimiter C W) history)) calls)) ->
  snd (AllowSeq (snd (AllowSeq (NewRateLimiter C W) history)) calls) =
  snd (AllowSeq (NewRateLimiter C W) history).
Proof.
  intros HC HW Hall.
  destruct (everyday_reached C W history HC HW) as (Hm & Ht & Hcap).
  apply rejected_run_unchanged; assumption.
Qed.

Lemma rejected_calls_leave_no_trace_witness :
  0 < 5 < 2 ^ 24 /\ 0 < 60 < 2 ^ 53 /\
  fst (AllowSeq (snd (AllowSeq (NewRateLimiter 5 60) (burst "k" 0 5)))
         [("k", 3 * GoTime.Second, 3 * GoTime.Second);
          ("k", 11 * GoTime.Second, 11 * GoTime.Second)]) = [false; false] /\
  snd (AllowSeq (snd (AllowSeq (NewRateLimiter 5 60) (burst "k" 0 5)))
         [("k", 3 * GoTime.Second, 3 * GoTime.Second);
          ("k", 11 * GoTime.Second, 11 * GoTime.Second)]) =
  snd (AllowSeq (NewRateLimiter 5 60) (burst "k" 0 5)).
Proof.
  assert (HC : 0 < 5 < 2 ^ 24) by lia.
  assert (HW : 0 < 60 < 2 ^ 53) by lia.
  assert (Hres : fst (AllowSeq (snd (AllowSeq (NewRateLimiter 5 60) (burst "k" 0 5)))
         [("k", 3 * GoTime.Second, 3 * GoTime.Second);
          ("k", 11 * GoTime.Second, 11 * GoTime.Second)]) = [false; false])
    by (vm_compute; reflexivity).
  split; [exact HC|]. split; [exact HW|]. split; [exact Hres|].
  apply (rejected_calls_leave_no_trace 5 60 _ _ HC HW).
  rewrite Hres. repeat constructor.
Defined.

(** ** Bursts *)

(** A call that earns nothing, on a bucket within capacity, takes one
    token if there is one and touches nothing else. *)
Lemma update_idle rl md now now' :
  tokensToAdd rl md now <= 0 ->
  0 <= tokenCount md <= maxLimit rl -> maxLimit rl <= GoInt.max_int ->
  update rl md now now' =
  if 0 <? tokenCount md
  then (true, {| lastSeen := lastSeen md; tokenCount := tokenCount md - 1 |})
  else (false, md).
Proof.
  intros Hz Hc Hm. rewrite update_no_refill by (assumption || lia).
  apply consume_spec. int_bounds.
Qed.

Lemma below_shift c n :
  map (fun i => Z.of_nat i <? c) (seq 1 n) =
  map (fun i => Z.of_nat i <? c - 1) (seq 0 n).
Proof.
  rewrite <- seq_shift, map_map. apply map_ext. intros i.
  destruct (Z.ltb_spec (Z.of_nat (S i)) c);
    destruct (Z.ltb_spec (Z.of_nat i) (c - 1)); lia || reflexivity.
Qed.

Lemma below_none c n :
  c <= 0 -> map (fun i => Z.of_nat i <? c) (seq 1 n) =
            map (fun i => Z.of_nat i <? c) (seq 0 n).
Proof.
  intros Hc. rewrite <- seq_shift, map_map. apply map_ext. intros i.
  destruct (Z.ltb_spec (Z.of_nat (S i)) c);
    destruct (Z.ltb_spec (Z.of_nat i) c); lia || reflexivity.
Qed.

(** A burst at an instant at which the bucket earns nothing. *)
Lemma AllowSeq_burst_idle n : forall rl apiKey md now,
  tokensToAdd rl md now <= 0 ->
  0 <= tokenCount md <= maxLimit rl -> maxLimit rl <= GoInt.max_int ->
  AllowSeq (store rl apiKey md) (burst apiKey now n) =
  (map (fun i => Z.of_nat i <? tokenCount md) (seq 0 n),
   store rl apiKey {| lastSeen := lastSeen md;
                      tokenCount := Z.max 0 (tokenCount md - Z.of_nat n) |}).
Proof.
  induction n as [|n IH]; intros rl apiKey md now Hz Hc Hm.
  - simpl. destruct md as [t c]; simpl in *. do 3 f_equal. lia.
  - change (burst apiKey now (S n)) with ((apiKey, now, now) :: burst apiKey now n).
    rewrite AllowSeq_cons, Allow_store, update_idle by assumption.
    change (seq 0 (S n)) with (0%nat :: seq 1 n). rewrite map_cons.
    destruct (Z.ltb_spec 0 (tokenCount md)) as [Hpos|Hzero]; cbn [fst snd].
    + pose proof (IH rl apiKey
                    (mkRequestMetadata (lastSeen md) (tokenCount md - 1)) now) as IH'.
      cbn [lastSeen tokenCount] in IH'.
      rewrite IH';
        [| rewrite (tokensToAdd_lastSeen rl
                      (mkRequestMetadata (lastSeen md) (tokenCount md - 1))
                      md now eq_refl); exact Hz
         | lia | exact Hm].
      cbn [fst snd]. rewrite below_shift. f_equal.
      * f_equal. symmetry. apply Z.ltb_lt. exact Hpos.
      * do 2 f_equal. lia.
    + rewrite (IH rl apiKey md now) by assumption.
      cbn [fst snd]. rewrite below_none by lia. f_equal.
      * f_equal. symmetry. apply Z.ltb_ge. lia.
      * do 2 f_equal. lia.
Qed.

Lemma allowed_cons ok oks :
  allowed (ok :: oks) = ((if ok then 1 else 0) + allowed oks)%nat.
Proof.
  unfold allowed. destruct ok.
  - rewrite filter_cons_True by reflexivity. reflexivity.
  - rewrite filter_cons_False by discriminate. reflexivity.
Qed.

Lemma allowed_app oks1 oks2 :
  allowed (oks1 ++ oks2) = (allowed oks1 + allowed oks2)%nat.
Proof. unfold allowed. rewrite filter_app, length_app. reflexivity. Qed.

(** Among the first [n] naturals, [min n c] are below [c]. *)
Lemma allowed_below c n :
  Z.of_nat (allowed (map (fun i => Z.of_nat i <? c) (seq 0 n))) =
  Z.min (Z.of_nat n) (Z.max 0 c).
Proof.
  induction n as [|n IH].
  - cbn [seq map]. unfold allowed. rewrite filter_nil. simpl. lia.
  - rewrite seq_S, map_app, allowed_app, Nat2Z.inj_add, IH.
    cbn [map Nat.add]. rewrite allowed_cons.
    unfold allowed. rewrite filter_nil.
    destruct (Z.ltb_spec (Z.of_nat n) c); simpl length; lia.
Qed.

(** The results of a burst on a fresh limiter. *)
Lemma burst_results C W apiKey now n :
  0 < C <= GoInt.max_int ->
  fst (AllowSeq (NewRateLimiter C W) (burst apiKey now n)) =
  map (fun i => Z.of_nat i <? C) (seq 0 n).
Proof.
  intros HC. destruct n as [|n]; [reflexivity|].
  rewrite AllowSeq_burst_new by (reflexivity || exact HC).
  cbn [fst maxLimit NewRateLimiter].
  change (seq 0 (S n)) with (0%nat :: seq 1 n).
  rewrite map_cons, below_shift. f_equal.
  symmetry. apply Z.ltb_lt. simpl. lia.
Qed.

(** X4. Bursts have the size of the capacity.  On a fresh limiter of any
    capacity [C] from 1 up, whatever its window, [n] calls for one key at
    one instant succeed up to call number [C] and fail from there on; so
    [min n C] of them succeed. *)
Theorem fresh_burst C W apiKey now n :
  0 < C <= GoInt.max_int ->
  fst (AllowSeq (NewRateLimiter C W) (burst apiKey now n)) =
    map (fun i => Z.of_nat i <? C) (seq 0 n) /\
  Z.of_nat (allowed (fst (AllowSeq (NewRateLimiter C W) (burst apiKey now n)))) =
    Z.min (Z.of_nat n) C.
Proof.
  intros HC. rewrite burst_results by exact HC.
  split; [reflexivity|]. rewrite allowed_below. lia.
Qed.

Lemma fresh_burst_witness :
  0 < 3 <= GoInt.max_int /\
  fst (AllowSeq (NewRateLimiter 3 0) (burst "k" 7 5)) =
    [true; true; true; false; false].
Proof.
  assert (HC : 0 < 3 <= GoInt.max_int) by (unfold GoInt.max_int; lia).
  split; [exact HC|].
  exact (proj1 (fresh_burst 3 0 "k" 7 5 HC)).
Defined.

(** What lines 41-59 do to a bucket within capacity when line 46 stays
    inside [int]. *)
Lemma update_outcome rl md now now' :
  0 < maxLimit rl <= GoInt.max_int ->
  0 <= tokenCount md <= maxLimit rl ->
  tokenCount md + tokensToAdd rl md now <= GoInt.max_int ->
  0 <= tokenCount (snd (update rl md now now')) <= maxLimit rl /\
  (fst (update rl md now now') = true ->
   tokenCount md - 1 <= tokenCount (snd (update rl md now now'))
                     <= maxLimit rl - 1) /\
  (fst (update rl md now now') = false ->
   snd (update rl md now now') = md /\ tokenCount md = 0) /\
  ((lastSeen (snd (update rl md now now')) = lastSeen md /\
    tokensToAdd rl md now <= 0) \/
   (lastSeen (snd (update rl md now now')) = now' /\
    0 < tokensToAdd rl md now)).
Proof.
  intros Hm Hc Hno.
  pose proof (tokensToAdd_in_range rl md now) as Hr.
  unfold update, consume, clamp, refill.
  destruct (Z.ltb_spec 0 (tokensToAdd rl md now)) as [Hadd|Hadd];
    cbn [tokenCount lastSeen];
    rewrite ?add_exact by int_bounds;
    repeat (split_ltb; cbn [fst snd tokenCount lastSeen] in * );
    rewrite ?sub_exact by int_bounds;
    try lia;
    (split; [lia|]);
    (split; [intros ?; try discriminate; lia|]);
    (split; [intros ?; try discriminate; split; [reflexivity | lia]|]);
    solve [left; split; [reflexivity|lia] | right; split; [reflexivity|lia]].
Qed.

Lemma burst_bound_from rl apiKey now n :
  0 < maxLimit rl < 2 ^ 24 -> 0 < timeLImit rl < 2 ^ 53 ->
  within_capacity rl ->
  Z.of_nat (allowed (fst (AllowSeq rl (burst apiKey now n)))) <= maxLimit rl.
Proof.
  intros Hm Ht Hcap.
  assert (Hmax : maxLimit rl <= GoInt.max_int) by (unfold GoInt.max_int; lia).
  destruct n as [|n].
  { unfold allowed. simpl. lia. }
  destruct (bucket rl apiKey) as [md|] eqn:Hb.
  - change (burst apiKey now (S n)) with ((apiKey, now, now) :: burst apiKey now n).
    rewrite AllowSeq_cons. cbn [fst].
    rewrite (Allow_existing _ _ md) by exact Hb. cbn [fst snd].
    destruct (update_outcome rl md now now ltac:(lia) (Hcap _ _ Hb)
                (no_overflow_below rl apiKey now Hm Ht Hcap md Hb))
      as (Hc' & Hyes & Hno & Hls).
    assert (Hidle : tokensToAdd rl (snd (update rl md now now)) now <= 0).
    { destruct Hls as [[Hls Hz]|[Hls _]].
      - rewrite (tokensToAdd_lastSeen rl _ md now Hls). exact Hz.
      - pose proof (tokensToAdd_same_instant rl (snd (update rl md now now)))
          as Hs.
        rewrite Hls in Hs. exact Hs. }
    rewrite AllowSeq_burst_idle by assumption. cbn [fst].
    rewrite allowed_cons, Nat2Z.inj_add, allowed_below.
    destruct (fst (update rl md now now)) eqn:Hok.
    + specialize (Hyes eq_refl). simpl Z.of_nat. lia.
    + destruct (Hno eq_refl) as [Heq Hz]. rewrite Heq, Hz. simpl Z.of_nat. lia.
  - rewrite AllowSeq_burst_new by (assumption || lia). cbn [fst].
    rewrite allowed_cons, Nat2Z.inj_add, allowed_below. simpl Z.of_nat. lia.
Qed.

(** X5. The burst bound.  On a limiter of everyday size, after any
    history and however long the key has been idle, at most [maxLimit]
    calls for one key succeed at any one instant. *)
Theorem burst_never_exceeds_capacity C W history apiKey now n :
  0 < C < 2 ^ 24 -> 0 < W < 2 ^ 53 ->
  Z.of_nat (allowed (fst (AllowSeq (snd (AllowSeq (NewRateLimiter C W) history))
                            (burst apiKey now n)))) <= C.
Proof.
  intros HC HW.
  destruct (everyday_reached C W history HC HW) as (Hm & Ht & Hcap).
  pose proof (burst_bound_from _ apiKey now n Hm Ht Hcap) as H.
  rewrite AllowSeq_maxLimit in H. exact H.
Qed.

(** A day after two calls, ten calls at once: five go through. *)
Lemma burst_never_exceeds_capacity_witness :
  0 < 5 < 2 ^ 24 /\ 0 < 60 < 2 ^ 53 /\
  allowed (fst (AllowSeq (snd (AllowSeq (NewRateLimiter 5 60) (burst "k" 0 2)))
                  (burst "k" (86400 * GoTime.Second) 10))) = 5%nat /\
  5 <= 5.
Proof.
  assert (HC : 0 < 5 < 2 ^ 24) by lia.
  assert (HW : 0 < 60 < 2 ^ 53) by lia.
  assert (Hn : allowed (fst (AllowSeq (snd (AllowSeq (NewRateLimiter 5 60)
                                              (burst "k" 0 2)))
                  (burst "k" (86400 * GoTime.Second) 10))) = 5%nat)
    by (vm_compute; reflexivity).
  split; [exact HC|]. split; [exact HW|]. split; [exact Hn|].
  pose proof (burst_never_exceeds_capacity 5 60 (burst "k" 0 2) "k"
                (86400 * GoTime.Second) 10 HC HW) as H.
  rewrite Hn in H. exact H.
Defined.

(** X6. A call costs one token at most.  On a limiter of everyday size,
    after any history, a call leaves in the bucket of its key at least
    what was there less one; and when it returns [true] it leaves at most
    [maxLimit - 1]: the token of the call itself is always taken. *)
Theorem call_costs_one_token C W history apiKey now now' md md' :
  0 < C < 2 ^ 24 -> 0 < W < 2 ^ 53 ->
  bucket (snd (AllowSeq (NewRateLimiter C W) history)) apiKey = Some md ->
  bucket (snd (Allow (snd (AllowSeq (NewRateLimiter C W) history))
                 apiKey now now')) apiKey = Some md' ->
  tokenCount md - 1 <= tokenCount md' /\
  (fst (Allow (snd (AllowSeq (NewRateLimiter C W) history)) apiKey now now')
   = true -> tokenCount md' <= C - 1).
Proof.
  intros HC HW Hb Hb'.
  destruct (everyday_reached C W history HC HW) as (Hm & Ht & Hcap).
  set (rl := snd (AllowSeq (NewRateLimiter C W) history)) in *.
  rewrite (Allow_existing _ _ md) in * by exact Hb. cbn [fst snd] in *.
  rewrite bucket_store in Hb'. injection Hb' as <-.
  destruct (update_outcome rl md now now'
              ltac:(unfold GoInt.max_int; lia) (Hcap _ _ Hb)
              (no_overflow_below rl apiKey now Hm Ht Hcap md Hb))
    as (Hc' & Hyes & Hno & _).
  assert (HmC : maxLimit rl = C) by apply AllowSeq_maxLimit.
  destruct (fst (update rl md now now')) eqn:Hok.
  - specialize (Hyes eq_refl). split; [lia|]. intros _. lia.
  - destruct (Hno eq_refl) as [-> Hz]. split; [lia | discriminate].
Qed.

Lemma call_costs_one_token_witness :
  0 < 5 < 2 ^ 24 /\ 0 < 60 < 2 ^ 53 /\
  bucket (snd (AllowSeq (NewRateLimiter 5 60) (burst "k" 0 2))) "k" =
    Some {| lastSeen := 0; tokenCount := 3 |} /\
  bucket (snd (Allow (snd (AllowSeq (NewRateLimiter 5 60) (burst "k" 0 2)))
                 "k" (86400 * GoTime.Second) (86400 * GoTime.Second))) "k" =
    Some {| lastSeen := 86400 * GoTime.Second; tokenCount := 4 |} /\
  3 - 1 <= 4.
Proof.
  assert (HC : 0 < 5 < 2 ^ 24) by lia.
  assert (HW : 0 < 60 < 2 ^ 53) by lia.
  assert (Hb : bucket (snd (AllowSeq (NewRateLimiter 5 60) (burst "k" 0 2))) "k" =
               Some {| lastSeen := 0; tokenCount := 3 |})
    by (vm_compute; reflexivity).
  assert (Hb' : bucket (snd (Allow (snd (AllowSeq (NewRateLimiter 5 60)
                                           (burst "k" 0 2)))
                 "k" (86400 * GoTime.Second) (86400 * GoTime.Second))) "k" =
                Some {| lastSeen := 86400 * GoTime.Second; tokenCount := 4 |})
    by (vm_compute; reflexivity).
  split; [exact HC|]. split; [exact HW|]. split; [exact Hb|]. split; [exact Hb'|].
  exact (proj1 (call_costs_one_token 5 60 _ "k" _ _ _ _ HC HW Hb Hb')).
Defined.

(** ** The clock *)

(** X7. A clock that has not moved on earns nothing.  When the clock
    reading of a call is not later than the bucket's [lastSeen] (the same
    instant, or a clock set back), no token is credited whatever the
    capacity and window from 0 up: the call takes a token if there is
    one, returns whether there was one, and leaves [lastSeen] alone. *)
Theorem stale_clock_earns_nothing rl apiKey md now now' :
  0 <= maxLimit rl <= GoInt.max_int -> 0 <= timeLImit rl ->
  bucket rl apiKey = Some md ->
  0 <= tokenCount md <= maxLimit rl ->
  now <= lastSeen md ->
  Allow rl apiKey now now' =
  (0 <? tokenCount md,
   store rl apiKey
     {| lastSeen := lastSeen md;
        tokenCount := if 0 <? tokenCount md then tokenCount md - 1
                      else tokenCount md |}).
Proof.
  intros Hm Ht Hb Hc Hnow.
  rewrite (Allow_existing _ _ md) by exact Hb.
  rewrite update_idle;
    [| apply tokensToAdd_nonpos; lia | exact Hc | lia].
  destruct (0 <? tokenCount md); cbn [fst snd]; [reflexivity|].
  destruct md; reflexivity.
Qed.

Lemma stale_clock_earns_nothing_witness :
  bucket (snd (AllowSeq (NewRateLimiter 5 60) (burst "k" 100 2))) "k" =
    Some {| lastSeen := 100; tokenCount := 3 |} /\
  Allow (snd (AllowSeq (NewRateLimiter 5 60) (burst "k" 100 2))) "k" 40 41 =
  (true, store (snd (AllowSeq (NewRateLimiter 5 60) (burst "k" 100 2))) "k"
           {| lastSeen := 100; tokenCount := 2 |}).
Proof.
  assert (Hm : 0 <= maxLimit (snd (AllowSeq (NewRateLimiter 5 60) (burst "k" 100 2)))
               <= GoInt.max_int) by (vm_compute; split; discriminate).
  assert (Ht : 0 <= timeLImit (snd (AllowSeq (NewRateLimiter 5 60) (burst "k" 100 2))))
    by (vm_compute; discriminate).
  assert (Hb : bucket (snd (AllowSeq (NewRateLimiter 5 60) (burst "k" 100 2))) "k" =
               Some {| lastSeen := 100; tokenCount := 3 |})
    by (vm_compute; reflexivity).
  split; [exact Hb|].
  apply (stale_clock_earns_nothing _ "k" _ 40 41 Hm Ht Hb);
    [vm_compute; split; discriminate | vm_compute; discriminate].
Defined.

(** X8. [lastSeen] never goes back.  For a capacity and window from 0 up
    and a clock that does not run backwards within the call, a call
    either leaves the [lastSeen] of its bucket alone or moves it forward,
    to the reading of line 47; and it moves it only when the clock had
    passed it. *)
Theorem lastSeen_never_goes_back rl apiKey md now now' :
  0 <= maxLimit rl -> 0 <= timeLImit rl -> now <= now' ->
  bucket rl apiKey = Some md ->
  exists md',
    bucket (snd (Allow rl apiKey now now')) apiKey = Some md' /\
    lastSeen md <= lastSeen md' /\
    (lastSeen md' = lastSeen md \/
     (lastSeen md' = now' /\ lastSeen md < now)).
Proof.
  intros Hm Ht Hclock Hb.
  rewrite (Allow_existing _ _ md) by exact Hb. cbn [snd].
  exists (snd (update rl md now now')). split; [apply bucket_store|].
  destruct (Z.ltb_spec 0 (tokensToAdd rl md now)) as [Hpos|Hnpos].
  - pose proof (tokensToAdd_pos_elapsed rl md now Hm Ht Hpos) as Hel.
    assert (Hls : lastSeen (snd (update rl md now now')) = now').
    { unfold update, consume, clamp, refill.
      destruct (Z.ltb_spec 0 (tokensToAdd rl md now)); [|lia].
      repeat (split_ltb; cbn [fst snd lastSeen]); reflexivity. }
    rewrite Hls. split; [lia|]. right. split; [reflexivity | exact Hel].
  - rewrite update_keeps_lastSeen by exact Hnpos.
    split; [lia | left; reflexivity].
Qed.

Lemma lastSeen_never_goes_back_witness :
  0 <= maxLimit drained_5_60 /\ 0 <= timeLImit drained_5_60 /\
  12 * GoTime.Second <= 12 * GoTime.Second + 5 /\
  bucket drained_5_60 "k" = Some {| lastSeen := 0; tokenCount := 0 |} /\
  exists md',
    bucket (snd (Allow drained_5_60 "k" (12 * GoTime.Second)
                   (12 * GoTime.Second + 5))) "k" = Some md' /\
    0 <= lastSeen md'.
Proof.
  assert (Hm : 0 <= maxLimit drained_5_60) by (vm_compute; discriminate).
  assert (Ht : 0 <= timeLImit drained_5_60) by (vm_compute; discriminate).
  assert (Hc : 12 * GoTime.Second <= 12 * GoTime.Second + 5) by lia.
  assert (Hb : bucket drained_5_60 "k" = Some {| lastSeen := 0; tokenCount := 0 |})
    by (vm_compute; reflexivity).
  split; [exact Hm|]. split; [exact Ht|]. split; [exact Hc|]. split; [exact Hb|].
  destruct (lastSeen_never_goes_back drained_5_60 "k" _ (12 * GoTime.Second)
              (12 * GoTime.Second + 5) Hm Ht Hc Hb) as (md' & Hb' & Hle & _).
  exists md'. split; [exact Hb' | exact Hle].
Defined.

(** ** A capacity that is not positive *)

(** Buckets at or below a capacity that is not positive. *)
Lemma update_nonpositive rl md now now' :
  GoInt.min_int < maxLimit rl <= 0 ->
  GoInt.in_range (tokenCount md) -> tokenCount md <= maxLimit rl ->
  fst (update rl md now now') = false /\
  GoInt.in_range (tokenCount (snd (update rl md now now'))) /\
  tokenCount (snd (update rl md now now')) <= maxLimit rl.
Proof.
  intros Hm Hr Hc.
  pose proof (tokensToAdd_in_range rl md now) as Hadd.
  unfold update, consume, clamp, refill.
  destruct (Z.ltb_spec 0 (tokensToAdd rl md now)); cbn [tokenCount lastSeen];
    rewrite ?add_exact by int_bounds;
    repeat (split_ltb; cbn [fst snd tokenCount lastSeen] in * );
    try lia; (split; [reflexivity|]); split; int_bounds.
Qed.

Lemma nonpositive_kept calls : forall rl,
  GoInt.min_int < maxLimit rl <= 0 ->
  (forall k md, bucket rl k = Some md ->
                GoInt.in_range (tokenCount md) /\ tokenCount md <= maxLimit rl) ->
  forall k md, bucket (snd (AllowSeq rl calls)) k = Some md ->
               GoInt.in_range (tokenCount md) /\
               tokenCount md <= maxLimit rl.
Proof.
  induction calls as [|[[a t] t'] rest IH]; intros rl Hm Hinv; [exact Hinv|].
  intros k md. rewrite AllowSeq_cons. cbn [snd]. intros Hb.
  pose proof (Allow_maxLimit rl a t t') as HmA.
  assert (Hstep : forall k' md', bucket (snd (Allow rl a t t')) k' = Some md' ->
            GoInt.in_range (tokenCount md') /\
            tokenCount md' <= maxLimit (snd (Allow rl a t t'))).
  { intros k' md' Hb'. rewrite HmA.
    destruct (decide (a = k')) as [->|Hne].
    2:{ rewrite bucket_Allow_ne in Hb' by exact Hne. exact (Hinv _ _ Hb'). }
    destruct (bucket rl k') as [md0|] eqn:Hb0.
    - rewrite (Allow_existing _ _ md0) in Hb' by exact Hb0. cbn [snd] in Hb'.
      rewrite bucket_store in Hb'. injection Hb' as <-.
      destruct (Hinv _ _ Hb0) as [Hr Hc].
      apply (update_nonpositive rl md0 t t' Hm Hr Hc).
    - rewrite Allow_new in Hb' by exact Hb0. cbn [snd] in Hb'.
      rewrite bucket_store in Hb'. injection Hb' as <-. cbn [tokenCount].
      rewrite sub_exact by int_bounds. int_bounds. }
  rewrite <- HmA.
  apply (IH (snd (Allow rl a t t')) ltac:(rewrite HmA; exact Hm) Hstep k md Hb).
Qed.

(** X9. [NewRateLimiter] checks nothing, and with a capacity that is not
    positive the limiter lets through exactly the first call of each key:
    after any history, at any clock reading, a call returns [true] if and
    only if its key has not been called before. *)
Theorem nonpositive_capacity_first_call_only C W history apiKey now now' :
  GoInt.min_int < C <= 0 ->
  (fst (Allow (snd (AllowSeq (NewRateLimiter C W) history)) apiKey now now')
   = true <-> apiKey ∉ called history).
Proof.
  intros HC.
  set (rl := snd (AllowSeq (NewRateLimiter C W) history)).
  assert (Hseen : seen rl = called history).
  { subst rl. rewrite seen_AllowSeq.
    replace (seen (NewRateLimiter C W)) with (∅ : gset string)
      by (symmetry; apply dom_empty_L).
    apply (right_id_L ∅ (∪)). }
  rewrite <- Hseen. unfold seen. rewrite not_elem_of_dom.
  fold (bucket rl apiKey).
  destruct (bucket rl apiKey) as [md|] eqn:Hb.
  - rewrite (Allow_existing _ _ md) by exact Hb. cbn [fst].
    assert (Hm : maxLimit rl = C) by apply AllowSeq_maxLimit.
    destruct (nonpositive_kept history (NewRateLimiter C W) HC
                ltac:(intros k m H; unfold bucket in H; simpl in H;
                      rewrite lookup_empty in H; discriminate)
                apiKey md Hb) as [Hr Hc].
    destruct (update_nonpositive rl md now now'
                ltac:(rewrite Hm; exact HC) Hr
                ltac:(rewrite Hm; exact Hc)) as [-> _].
    split; discriminate.
  - rewrite Allow_new by exact Hb. cbn [fst]. split; reflexivity.
Qed.

Lemma nonpositive_capacity_first_call_only_witness :
  GoInt.min_int < 0 <= 0 /\
  fst (AllowSeq (NewRateLimiter 0 60)
         [("k", 0, 0); ("k", 3600 * GoTime.Second, 3600 * GoTime.Second);
          ("j", 3600 * GoTime.Second, 3600 * GoTime.Second)]) =
    [true; false; true] /\
  fst (Allow (snd (AllowSeq (NewRateLimiter 0 60) [("k", 0, 0)])) "j" 5 5) = true.
Proof.
  assert (HC : GoInt.min_int < 0 <= 0) by (unfold GoInt.min_int; lia).
  split; [exact HC|]. split; [vm_compute; reflexivity|].
  apply (nonpositive_capacity_first_call_only 0 60 [("k", 0, 0)] "j" 5 5 HC).
  unfold called. simpl. rewrite elem_of_union, elem_of_singleton.
  intros [H|H]; [discriminate | exact (not_elem_of_empty _ H)].
Defined.

(** ** The wrapped handler on sequences of requests *)

Lemma serveSeq_cons {App : Type} (apiKeys : gmap string bool)
    (next : Http.Handler App) r now now' rest st :
  serveSeq apiKeys next ((r, now, now') :: rest) st =
  (fst (RateLimiterMiddleware apiKeys next now now' r st)
     :: fst (serveSeq apiKeys next rest
               (snd (RateLimiterMiddleware apiKeys next now now' r st))),
   snd (serveSeq apiKeys next rest
          (snd (RateLimiterMiddleware apiKeys next now now' r st)))).
Proof.
  simpl. destruct (RateLimiterMiddleware apiKeys next now now' r st) as [resp st1].
  simpl. destruct (serveSeq apiKeys next rest st1); reflexivity.
Qed.

(** A request with a key of the table: the answer is [Allow]'s. *)
Lemma middleware_passed {App : Type} (apiKeys : gmap string bool)
    (next : Http.Handler App) now now' r st :
  Http.Get (Http.Header r) "X-API-KEY" <> EmptyString ->
  is_Some (apiKeys !! Http.Get (Http.Header r) "X-API-KEY") ->
  RateLimiterMiddleware apiKeys next now now' r st =
  if fst (Allow (fst st) (Http.Get (Http.Header r) "X-API-KEY") now now')
  then (fst (next r (snd st)),
        (snd (Allow (fst st) (Http.Get (Http.Header r) "X-API-KEY") now now'),
         snd (next r (snd st))))
  else (Http.Error "Rate limit exceeded" Http.StatusTooManyRequests,
        (snd (Allow (fst st) (Http.Get (Http.Header r) "X-API-KEY") now now'),
         snd st)).
Proof.
  intros Hne [v Hkey]. unfold RateLimiterMiddleware.
  destruct (String.eqb_spec (Http.Get (Http.Header r) "X-API-KEY") EmptyString)
    as [He|_]; [contradiction|].
  unfold isValidApiKey. rewrite Hkey. cbn [negb].
  destruct (Allow (fst st) (Http.Get (Http.Header r) "X-API-KEY") now now')
    as [[] limiter']; cbn [fst snd negb]; [|reflexivity].
  destruct (next r (snd st)); reflexivity.
Qed.

(** The limiter after a sequence of requests. *)
Lemma serveSeq_limiter {App : Type} (apiKeys : gmap string bool)
    (next : Http.Handler App) reqs : forall st,
  fst (snd (serveSeq apiKeys next reqs st)) =
  snd (AllowSeq (fst st) (limiter_calls apiKeys reqs)).
Proof.
  induction reqs as [|[[r now] now'] rest IH]; intros st; [reflexivity|].
  rewrite serveSeq_cons. cbn [snd]. rewrite IH. cbn [limiter_calls].
  unfold RateLimiterMiddleware.
  destruct (String.eqb (Http.Get (Http.Header r) "X-API-KEY") EmptyString);
    [reflexivity|].
  destruct (negb (isValidApiKey apiKeys (Http.Get (Http.Header r) "X-API-KEY")));
    [reflexivity|].
  rewrite AllowSeq_cons. cbn [snd].
  destruct (Allow (fst st) (Http.Get (Http.Header r) "X-API-KEY") now now')
    as [[] limiter']; cbn [fst snd negb]; [|reflexivity].
  destruct (next r (snd st)); reflexivity.
Qed.

Lemma called_limiter_calls (apiKeys : gmap string bool) reqs :
  called (limiter_calls apiKeys reqs) ⊆ dom apiKeys ∖ {[EmptyString]}.
Proof.
  induction reqs as [|[[r now] now'] rest IH]; [apply empty_subseteq|].
  cbn [limiter_calls].
  destruct (String.eqb_spec (Http.Get (Http.Header r) "X-API-KEY") EmptyString)
    as [He|Hne]; [exact IH|].
  unfold isValidApiKey.
  destruct (apiKeys !! Http.Get (Http.Header r) "X-API-KEY") as [v|] eqn:Hkey;
    cbn [negb]; [|exact IH].
  unfold called. cbn [map fst list_to_set]. fold (called (limiter_calls apiKeys rest)).
  apply union_least; [|exact IH].
  apply singleton_subseteq_l, elem_of_difference. split.
  - apply elem_of_dom. exists v. exact Hkey.
  - rewrite elem_of_singleton. exact Hne.
Qed.

(** X10. Requests without a key of the table never reach the limiter.
    After any sequence of requests through the wrapped handler, the
    limiter is what the calls of [Allow] for the requests with a key of
    the table, in their order, make of it; so the only buckets that can
    appear are those of keys of the table, and never one for the empty
    key. *)
Theorem unknown_keys_never_reach_limiter {App : Type}
    (apiKeys : gmap string bool) (next : Http.Handler App) reqs st :
  fst (snd (serveSeq apiKeys next reqs st)) =
    snd (AllowSeq (fst st) (limiter_calls apiKeys reqs)) /\
  seen (fst (snd (serveSeq apiKeys next reqs st)))
    ⊆ seen (fst st) ∪ (dom apiKeys ∖ {[EmptyString]}).
Proof.
  split; [apply serveSeq_limiter|].
  rewrite serveSeq_limiter, seen_AllowSeq.
  rewrite (comm_L (∪)). apply union_mono_l, called_limiter_calls.
Qed.

Lemma isValidApiKey_dom (keys1 keys2 : gmap string bool) apiKey :
  dom keys1 = dom keys2 ->
  isValidApiKey keys1 apiKey = isValidApiKey keys2 apiKey.
Proof.
  intros Hdom. unfold isValidApiKey.
  destruct (keys1 !! apiKey) as [v|] eqn:H1.
  - assert (Hin : apiKey ∈ dom keys2)
      by (rewrite <- Hdom; apply elem_of_dom; exists v; exact H1).
    apply elem_of_dom in Hin as [v' ->]. reflexivity.
  - apply not_elem_of_dom in H1. rewrite Hdom in H1.
    apply not_elem_of_dom in H1. rewrite H1. reflexivity.
Qed.

(** X11. The booleans of the key table are never read.  Two tables with
    the same keys make the same wrapped handler: every sequence of
    requests gets the same responses and leaves the same state; a key
    stored with [false] is as good as one stored with [true]. *)
Theorem table_values_ignored {App : Type} (keys1 keys2 : gmap string bool)
    (next : Http.Handler App) reqs st :
  dom keys1 = dom keys2 ->
  serveSeq keys1 next reqs st = serveSeq keys2 next reqs st.
Proof.
  intros Hdom. revert st.
  induction reqs as [|[[r now] now'] rest IH]; intros st; [reflexivity|].
  rewrite !serveSeq_cons.
  assert (Hsame : RateLimiterMiddleware keys1 next now now' r st =
                  RateLimiterMiddleware keys2 next now now' r st).
  { unfold RateLimiterMiddleware.
    rewrite (isValidApiKey_dom keys1 keys2 _ Hdom). reflexivity. }
  rewrite Hsame, IH. reflexivity.
Qed.

Lemma table_values_ignored_witness :
  dom example_keys =
    dom (<["apikey123" := false]> (<["apikey124" := false]> (∅ : gmap string bool))) /\
  fst (serveSeq (<["apikey123" := false]> (<["apikey124" := false]> ∅))
         helloHandler
         [(request_with_key "apikey123", 0, 0)] (NewRateLimiter 5 60, 0%nat)) =
  [{| Http.StatusCode := 200; Http.ResponseBody := "Hello World" |}].
Proof.
  assert (Hdom : dom example_keys =
                 dom (<["apikey123" := false]>
                        (<["apikey124" := false]> (∅ : gmap string bool)))).
  { unfold example_keys. rewrite !dom_insert_L. reflexivity. }
  split; [exact Hdom|].
  rewrite <- (table_values_ignored example_keys _ helloHandler
                [(request_with_key "apikey123", 0, 0)]
                (NewRateLimiter 5 60, 0%nat) Hdom).
  vm_compute. reflexivity.
Defined.

Lemma runHandler_cons {App : Type} (next : Http.Handler App) r rest app :
  runHandler next (r :: rest) app =
  (fst (next r app) :: fst (runHandler next rest (snd (next r app))),
   snd (runHandler next rest (snd (next r app)))).
Proof.
  simpl. destruct (next r app) as [resp app1]. simpl.
  destruct (runHandler next rest app1); reflexivity.
Qed.

(** A request with a key of the table, at an instant at which its bucket
    of [t] tokens earns nothing. *)
Lemma middleware_stored {App : Type} (apiKeys : gmap string bool)
    (next : Http.Handler App) now r rl md t app :
  Http.Get (Http.Header r) "X-API-KEY" <> EmptyString ->
  is_Some (apiKeys !! Http.Get (Http.Header r) "X-API-KEY") ->
  tokenCount md = Z.of_nat t -> Z.of_nat t <= maxLimit rl <= GoInt.max_int ->
  tokensToAdd rl md now <= 0 ->
  RateLimiterMiddleware apiKeys next now now r
    (store rl (Http.Get (Http.Header r) "X-API-KEY") md, app) =
  match t with
  | O => (Http.Error "Rate limit exceeded" Http.StatusTooManyRequests,
          (store rl (Http.Get (Http.Header r) "X-API-KEY") md, app))
  | S t' => (fst (next r app),
             (store rl (Http.Get (Http.Header r) "X-API-KEY")
                {| lastSeen := lastSeen md; tokenCount := Z.of_nat t' |},
              snd (next r app)))
  end.
Proof.
  intros Hne Hvalid Ht Hm Hz.
  rewrite middleware_passed by assumption. cbn [fst snd].
  rewrite Allow_store, update_idle by (assumption || lia). rewrite Ht.
  destruct t as [|t'].
  - change (0 <? Z.of_nat 0) with false. reflexivity.
  - replace (0 <? Z.of_nat (S t')) with true by (symmetry; apply Z.ltb_lt; lia).
    cbn [fst snd]. do 4 f_equal. lia.
Qed.

(** The same request [n] times at one instant, on a bucket of [t] tokens
    that earns nothing at that instant. *)
Lemma serveSeq_burst_stored {App : Type} (apiKeys : gmap string bool)
    (next : Http.Handler App) now r rl :
  Http.Get (Http.Header r) "X-API-KEY" <> EmptyString ->
  is_Some (apiKeys !! Http.Get (Http.Header r) "X-API-KEY") ->
  forall n md t app,
    tokenCount md = Z.of_nat t -> Z.of_nat t <= maxLimit rl <= GoInt.max_int ->
    tokensToAdd rl md now <= 0 ->
    serveSeq apiKeys next (replicate n (r, now, now))
      (store rl (Http.Get (Http.Header r) "X-API-KEY") md, app) =
    (fst (runHandler next (replicate (Nat.min n t) r) app)
       ++ replicate (n - t)
            (Http.Error "Rate limit exceeded" Http.StatusTooManyRequests),
     (store rl (Http.Get (Http.Header r) "X-API-KEY")
        {| lastSeen := lastSeen md; tokenCount := Z.of_nat (t - n) |},
      snd (runHandler next (replicate (Nat.min n t) r) app))).
Proof.
  intros Hne Hvalid. induction n as [|n IH]; intros md t app Ht Hm Hz.
  - simpl. rewrite Nat.sub_0_r, <- Ht. destruct md; reflexivity.
  - change (replicate (S n) (r, now, now))
      with ((r, now, now) :: replicate n (r, now, now)).
    rewrite serveSeq_cons.
    rewrite (middleware_stored apiKeys next now r rl md t app)
      by assumption.
    destruct t as [|t']; cbn [fst snd].
    + rewrite (IH md 0%nat app) by assumption.
      rewrite ?Nat.min_0_r, ?Nat.sub_0_r. reflexivity.
    + pose proof (IH (mkRequestMetadata (lastSeen md) (Z.of_nat t')) t'
                    (snd (next r app))) as IH'.
      cbn [lastSeen tokenCount] in IH'.
      rewrite IH';
        [| reflexivity | lia
         | rewrite (tokensToAdd_lastSeen rl
                      (mkRequestMetadata (lastSeen md) (Z.of_nat t'))
                      md now eq_refl); exact Hz].
      change (Nat.min (S n) (S t')) with (S (Nat.min n t')).
      change (replicate (S (Nat.min n t')) r)
        with (r :: replicate (Nat.min n t') r).
      rewrite runHandler_cons. reflexivity.
Qed.

(** X12. A burst over HTTP.  The same request, with a key of the table,
    sent [n] times at one instant to a fresh limiter of capacity [C] from
    1 up: the first [min n C] are handed to the inner handler, one after
    the other, and get its responses; each of the others gets 429 and the
    inner handler does not see it. *)
Theorem http_burst {App : Type} (apiKeys : gmap string bool)
    (next : Http.Handler App) C W now r n app :
  0 < C <= GoInt.max_int ->
  Http.Get (Http.Header r) "X-API-KEY" <> EmptyString ->
  is_Some (apiKeys !! Http.Get (Http.Header r) "X-API-KEY") ->
  fst (serveSeq apiKeys next (replicate n (r, now, now))
         (NewRateLimiter C W, app)) =
    fst (runHandler next (replicate (Nat.min n (Z.to_nat C)) r) app)
      ++ replicate (n - Z.to_nat C) (Http.Error "Rate limit exceeded" 429) /\
  snd (snd (serveSeq apiKeys next (replicate n (r, now, now))
              (NewRateLimiter C W, app))) =
    snd (runHandler next (replicate (Nat.min n (Z.to_nat C)) r) app).
Proof.
  intros HC Hne Hvalid.
  destruct n as [|n]; [split; reflexivity|].
  change (replicate (S n) (r, now, now))
    with ((r, now, now) :: replicate n (r, now, now)).
  rewrite serveSeq_cons, middleware_passed by assumption.
  rewrite Allow_new by reflexivity. cbn [fst snd NewRateLimiter maxLimit].
  rewrite sub_exact by int_bounds.
  destruct (Z.to_nat C) as [|c'] eqn:Hc; [lia|].
  rewrite (serveSeq_burst_stored apiKeys next now r (NewRateLimiter C W)
             Hne Hvalid n (mkRequestMetadata now (C - 1)) c')
    by (cbn [tokenCount maxLimit NewRateLimiter];
        first [ lia
              | exact (tokensToAdd_same_instant (NewRateLimiter C W)
                         (mkRequestMetadata now (C - 1))) ]).
  cbn [fst snd].
  change (Nat.min (S n) (S c')) with (S (Nat.min n c')).
  change (replicate (S (Nat.min n c')) r) with (r :: replicate (Nat.min n c') r).
  rewrite runHandler_cons. split; reflexivity.
Qed.

Lemma http_burst_witness :
  fst (serveSeq example_keys helloHandler
         (replicate 3 (request_with_key "apikey124", 9, 9))
         (NewRateLimiter 2 60, 0%nat)) =
    [ {| Http.StatusCode := 200; Http.ResponseBody := "Hello World" |};
      {| Http.StatusCode := 200; Http.ResponseBody := "Hello World" |};
      Http.Error "Rate limit exceeded" 429 ] /\
  snd (snd (serveSeq example_keys helloHandler
              (replicate 3 (request_with_key "apikey124", 9, 9))
              (NewRateLimiter 2 60, 0%nat))) = 2%nat.
Proof.
  assert (HC : 0 < 2 <= GoInt.max_int) by (unfold GoInt.max_int; lia).
  assert (Hne : Http.Get (Http.Header (request_with_key "apikey124")) "X-API-KEY"
                <> EmptyString) by (vm_compute; discriminate).
  assert (Hvalid : is_Some (example_keys
                     !! Http.Get (Http.Header (request_with_key "apikey124"))
                          "X-API-KEY"))
    by (exists true; vm_compute; reflexivity).
  exact (http_burst example_keys helloHandler 2 60 9
           (request_with_key "apikey124") 3 0%nat HC Hne Hvalid).
Defined.

(** ** [main.go]: two routes, one limiter *)

(** Requests for any routes with one key of the table, on a bucket of
    [t] tokens that earns nothing at that instant. *)
Lemma serveAll_stored (apiKeys : gmap string bool) now r rl :
  Http.Get (Http.Header r) "X-API-KEY" <> EmptyString ->
  is_Some (apiKeys !! Http.Get (Http.Header r) "X-API-KEY") ->
  forall routes md t served,
    tokenCount md = Z.of_nat t -> Z.of_nat t <= maxLimit rl <= GoInt.max_int ->
    tokensToAdd rl md now <= 0 ->
    Main.serveAll apiKeys (map (fun route => (route, r, now, now)) routes)
      (store rl (Http.Get (Http.Header r) "X-API-KEY") md, served) =
    (map (fun route => fst (Main.inner route r 0%nat)) (take t routes)
       ++ replicate (length routes - t)
            (Http.Error "Rate limit exceeded" Http.StatusTooManyRequests),
     (store rl (Http.Get (Http.Header r) "X-API-KEY")
        {| lastSeen := lastSeen md;
           tokenCount := Z.of_nat (t - length routes) |},
      (served + Nat.min (length routes) t)%nat)).
Proof.
  intros Hne Hvalid.
  induction routes as [|route routes IH]; intros md t served Ht Hm Hz.
  - simpl. rewrite take_nil, Nat.sub_0_r, Nat.add_0_r, <- Ht.
    destruct md; reflexivity.
  - cbn [map Main.serveAll]. unfold Main.registered.
    rewrite (middleware_stored apiKeys (Main.inner route) now r rl md t served)
      by assumption.
    destruct t as [|t'].
    + rewrite (IH md 0%nat served) by assumption.
      rewrite !take_0, !Nat.min_0_r. cbn [map app length]. rewrite !Nat.sub_0_r.
      reflexivity.
    + pose proof (IH (mkRequestMetadata (lastSeen md) (Z.of_nat t')) t'
                    (snd (Main.inner route r served))) as IH'.
      cbn [lastSeen tokenCount] in IH'.
      rewrite IH';
        [| reflexivity | lia
         | rewrite (tokensToAdd_lastSeen rl
                      (mkRequestMetadata (lastSeen md) (Z.of_nat t'))
                      md now eq_refl); exact Hz].
      cbn [take map app length]. cbn [Nat.sub].
      replace (snd (Main.inner route r served)) with (S served)
        by (destruct route; reflexivity).
      replace (fst (Main.inner route r served))
        with (fst (Main.inner route r 0%nat))
        by (destruct route; reflexivity).
      f_equal. f_equal. lia.
Qed.

(** X13. The two routes of [main.go] draw on one budget.  Requests with
    one key of the table arriving at one instant, for [/hello] and
    [/world] in any mix: the first five get the page of their route, all
    later ones get 429, and the limiter holds a single bucket for the
    key. *)
Theorem routes_share_one_budget (apiKeys : gmap string bool) now r routes served :
  Http.Get (Http.Header r) "X-API-KEY" <> EmptyString ->
  is_Some (apiKeys !! Http.Get (Http.Header r) "X-API-KEY") ->
  fst (Main.serveAll apiKeys (map (fun route => (route, r, now, now)) routes)
         (Main.rateLimiter, served)) =
    map (fun route =>
           {| Http.StatusCode := 200;
              Http.ResponseBody := match route with
                                   | Main.Hello => "Hello World"
                                   | Main.World => "Welcome to the World"
                                   end |}) (take 5 routes)
      ++ replicate (length routes - 5) (Http.Error "Rate limit exceeded" 429) /\
  snd (snd (Main.serveAll apiKeys (map (fun route => (route, r, now, now)) routes)
              (Main.rateLimiter, served))) =
    (served + Nat.min (length routes) 5)%nat /\
  (routes <> [] ->
   seen (fst (snd (Main.serveAll apiKeys
                     (map (fun route => (route, r, now, now)) routes)
                     (Main.rateLimiter, served)))) =
     {[Http.Get (Http.Header r) "X-API-KEY"]}).
Proof.
  intros Hne Hvalid.
  destruct routes as [|route routes].
  { split; [reflexivity|]. split; [simpl; lia | intros H; contradiction]. }
  cbn [map Main.serveAll]. unfold Main.registered.
  rewrite middleware_passed by assumption.
  unfold Main.rateLimiter.
  rewrite Allow_new by reflexivity. cbn [fst snd NewRateLimiter maxLimit].
  change (GoInt.sub 5 1) with (Z.of_nat 4).
  rewrite (serveAll_stored apiKeys now r (NewRateLimiter 5 60) Hne Hvalid
             routes (mkRequestMetadata now (Z.of_nat 4)) 4)
    by (cbn [tokenCount maxLimit NewRateLimiter];
        first [ reflexivity | int_bounds
              | exact (tokensToAdd_same_instant (NewRateLimiter 5 60)
                         (mkRequestMetadata now (Z.of_nat 4))) ]).
  cbn [fst snd take map app length].
  split; [|split].
  - rewrite (map_ext (fun route0 => fst (Main.inner route0 r 0%nat))
               (fun route0 =>
                  {| Http.StatusCode := 200;
                     Http.ResponseBody := match route0 with
                                          | Main.Hello => "Hello World"
                                          | Main.World => "Welcome to the World"
                                          end |}))
      by (intros []; reflexivity).
    destruct route; reflexivity.
  - replace (snd (Main.inner route r served)) with (S served)
      by (destruct route; reflexivity).
    change (Nat.min (S (length routes)) 5) with (S (Nat.min (length routes) 4)).
    lia.
  - intros _. unfold seen, store. cbn [requests NewRateLimiter].
    rewrite dom_insert_L, dom_empty_L. apply (right_id_L ∅ (∪)).
Qed.

Lemma routes_share_one_budget_witness :
  map Http.StatusCode
    (fst (Main.serveAll example_keys
            (map (fun route => (route, request_with_key "apikey123", 0, 0))
               [Main.Hello; Main.World; Main.World; Main.Hello; Main.World;
                Main.Hello; Main.World])
            (Main.rateLimiter, 0%nat))) =
  [200; 200; 200; 200; 200; 429; 429].
Proof.
  assert (Hne : Http.Get (Http.Header (request_with_key "apikey123")) "X-API-KEY"
                <> EmptyString) by (vm_compute; discriminate).
  assert (Hvalid : is_Some (example_keys
                     !! Http.Get (Http.Header (request_with_key "apikey123"))
                          "X-API-KEY"))
    by (exists true; vm_compute; reflexivity).
  rewrite (proj1 (routes_share_one_budget example_keys 0
                    (request_with_key "apikey123")
                    [Main.Hello; Main.World; Main.World; Main.Hello; Main.World;
                     Main.Hello; Main.World] 0%nat Hne Hvalid)).
  reflexivity.
Defined.

(** ** Goroutines: the bucket at the end *)

(** The schedule that runs two callers of a one-token limiter one after
    the other. *)
Lemma two_callers_done_reachable :
  Concurrent.reachable "k" 0 (NewRateLimiter 1 60) 2 Concurrent.two_callers_done.
Proof.
  unfold Concurrent.reachable.
  eapply rtc_trans.
  { apply (run_to_completion "k" 0 _ 0%nat); reflexivity. }
  eapply rtc_trans.
  { apply (run_to_completion "k" 0 _ 1%nat); reflexivity. }
  match goal with
  | |- rtc _ ?x ?y => replace x with y; [apply rtc_refl|]
  end.
  vm_compute. reflexivity.
Qed.

(** X14. Concurrent callers lose no update.  [n] goroutines call [Allow]
    for one key of a fresh limiter of capacity [C] from 1 up while the
    clock stands still.  Whatever the schedule, once nothing can move the
    mutex is free and the bucket of the key is the one that [n] calls one
    after the other leave: none when [n] is 0, else [C - min n C] tokens
    with [lastSeen] at the clock reading. *)
Theorem concurrent_burst_as_sequential apiKey now C W n c :
  0 < C <= GoInt.max_int ->
  Concurrent.reachable apiKey now (NewRateLimiter C W) n c ->
  Concurrent.halted apiKey now c ->
  Concurrent.mutex c = false /\
  bucket (Concurrent.limiter c) apiKey =
    bucket (snd (AllowSeq (NewRateLimiter C W) (burst apiKey now n))) apiKey /\
  ((0 < n)%nat ->
   bucket (Concurrent.limiter c) apiKey =
     Some {| lastSeen := now; tokenCount := C - Z.min (Z.of_nat n) C |}).
Proof.
  intros HC Hreach Hhalt.
  pose proof (inv_reachable apiKey now C W n HC c Hreach) as Hinv.
  destruct (inv_progress _ _ _ _ _ _ Hinv) as [[c' Hstep]|Hall];
    [exfalso; exact (Hhalt c' Hstep)|].
  destruct (returned_counts _ Hall) as [Hd _].
  destruct Hinv as (_ & _ & Hlen & Hcrit & Hbucket & _ & _).
  rewrite Hd, Hlen in Hbucket.
  assert (Hfree : Concurrent.mutex c = false).
  { destruct (Concurrent.mutex c); [|reflexivity]. exfalso.
    destruct (sum_list_with_pos Concurrent.critical (Concurrent.threads c)
                ltac:(lia)) as (i & th & Hi & Hth).
    rewrite Forall_lookup in Hall. specialize (Hall _ _ Hi).
    destruct th; simpl in Hth; try lia; discriminate. }
  split; [exact Hfree|]. rewrite Hbucket.
  destruct n as [|n]; [split; [reflexivity | lia]|].
  split; [|intros _; reflexivity].
  rewrite AllowSeq_burst_new by (reflexivity || exact HC).
  cbn [snd maxLimit NewRateLimiter]. rewrite bucket_store.
  do 2 f_equal. lia.
Qed.

Lemma concurrent_burst_as_sequential_witness :
  Concurrent.reachable "k" 0 (NewRateLimiter 1 60) 2 Concurrent.two_callers_done /\
  Concurrent.halted "k" 0 Concurrent.two_callers_done /\
  bucket (Concurrent.limiter Concurrent.two_callers_done) "k" =
    Some {| lastSeen := 0; tokenCount := 0 |}.
Proof.
  assert (HC : 0 < 1 <= GoInt.max_int) by (unfold GoInt.max_int; lia).
  assert (Hhalt : Concurrent.halted "k" 0 Concurrent.two_callers_done).
  { apply returned_halted. repeat constructor. }
  split; [exact two_callers_done_reachable|]. split; [exact Hhalt|].
  apply (concurrent_burst_as_sequential "k" 0 1 60 2 _ HC
           two_callers_done_reachable Hhalt).
  apply Nat.lt_0_succ.
Defined.
